(** * String and number helpers of modules-pkg/utils: a shallow embedding

    The two leaf modules of the package, [string.ts] and [number.ts], are
    embedded function by function.  Conventions of the embedding:

    - a string is the sequence of its UTF-16 code units ([jsstring]), which
      is what [length], [slice], [split] and regular expressions without the
      [u] flag operate on;
    - a number argument is an integer ([Z]); the embedding is exact as long
      as every intermediate value is a safe integer.  The remainder operator
      [%] truncates towards zero ([Z.rem]);
    - the result of the numeric coercion of a string ([+str]) is kept
      symbolic: not-a-number, an infinity, or a finite decimal value;
    - regular expressions used by the package are sequences of one-unit
      character classes, optionally captured; [replace] with the [g] flag and
      a replacement template is modelled for all of them at once;
    - the Unicode lower-casing table of the host is a parameter of the
      functions that call [toLowerCase]. *)

From Stdlib Require Import Ascii String DecimalString DecimalPos.
From Stdlib Require Import ZArith NArith Lia Bool List Sorted Permutation.
From Stdlib Require QArith.
From Equations Require Import Equations.
Import ListNotations.

(** ** Host primitives *)

Module JS.

Definition code_unit := N.
Bind Scope N_scope with code_unit.
Definition jsstring := list code_unit.

Definition cu (a : ascii) : code_unit := N_of_ascii a.

(** A string literal of the source, as code units. *)
Definition js (s : string) : jsstring := map cu (list_ascii_of_string s).

(** [a === b] on strings. *)
Definition strict_eq (a b : jsstring) : bool :=
  if list_eq_dec N.eq_dec a b then true else false.

Definition between (lo hi c : code_unit) : bool :=
  ((lo <=? c) && (c <=? hi))%N.

Definition isDecimalDigit (c : code_unit) : bool := between 48 57 c.

Definition digitValue (c : code_unit) : nat := N.to_nat (c - 48)%N.

(** LineTerminator: LF, CR, LS, PS. *)
Definition isLineTerminator (c : code_unit) : bool :=
  ((c =? 10) || (c =? 13) || (c =? 8232) || (c =? 8233))%N.

(** WhiteSpace or LineTerminator (the StrWhiteSpaceChar production). *)
Definition isStrWhiteSpaceChar (c : code_unit) : bool :=
  (between 9 13 c || (c =? 32) || (c =? 160) || (c =? 5760)
   || between 8192 8202 c || (c =? 8232) || (c =? 8233) || (c =? 8239)
   || (c =? 8287) || (c =? 12288) || (c =? 65279))%N.

(** [str.slice(start, end)] with integer arguments: a negative bound counts
    from the end, both are clamped to the string. *)
Definition slice (str : jsstring) (start finish : Z) : jsstring :=
  let len := Z.of_nat (length str) in
  let from := if (start <? 0)%Z then Z.max (len + start) 0 else Z.min start len in
  let to := if (finish <? 0)%Z then Z.max (len + finish) 0 else Z.min finish len in
  firstn (Z.to_nat (to - from)) (skipn (Z.to_nat from) str).

(** *** Replacement templates *)

Definition capture (captures : list (option jsstring)) (index : nat) : jsstring :=
  match nth_error captures (index - 1) with
  | Some (Some s) => s
  | _ => []
  end.

(** GetSubstitution for a match without named groups: [$$], [$&], the text
    before and after the match, and one- or two-digit group references; any
    other [$] stands for itself. *)
Fixpoint GetSubstitution (matched str : jsstring) (position : nat)
    (captures : list (option jsstring)) (template : jsstring) : jsstring :=
  let continue := GetSubstitution matched str position captures in
  match template with
  | [] => []
  | c :: t1 =>
    if negb (c =? cu "$")%N then c :: continue t1 else
    match t1 with
    | [] => [c]
    | d :: t2 =>
      if (d =? cu "$")%N then cu "$" :: continue t2
      else if (d =? cu "`")%N then firstn position str ++ continue t2
      else if (d =? cu "&")%N then matched ++ continue t2
      else if (d =? cu "'")%N then
        skipn (Nat.min (position + length matched) (length str)) str ++ continue t2
      else if isDecimalDigit d then
        let captureLen := length captures in
        let one := digitValue d in
        let oneDigit :=
          (if (1 <=? one) && (one <=? captureLen) then capture captures one
           else [c; d]) ++ continue t2 in
        match t2 with
        | [] => oneDigit
        | e :: t3 =>
          let two := 10 * one + digitValue e in
          if isDecimalDigit e && (two <=? captureLen) then
            (if 1 <=? two then capture captures two else [c; d; e]) ++ continue t3
          else oneDigit
        end
      else c :: continue t1
    end
  end.

(** *** Regular expressions *)

Definition CharClass := code_unit -> bool.

(** [.] without the [s] flag. *)
Definition dot : CharClass := fun c => negb (isLineTerminator c).
Definition lit (a : ascii) : CharClass := N.eqb (cu a).
Definition range (a b : ascii) : CharClass := between (cu a) (cu b).

Inductive Atom :=
| plain (cls : CharClass)
| group (cls : CharClass).

Definition RegExp := list Atom.

(** Match anchored at the head of [input]: the number of code units matched
    and the captures, in order. *)
Fixpoint exec (re : RegExp) (input : jsstring) : option (nat * list (option jsstring)) :=
  match re with
  | [] => Some (O, [])
  | a :: re' =>
    match input with
    | [] => None
    | c :: input' =>
      let '(cls, captured) :=
        match a with plain k => (k, false) | group k => (k, true) end in
      if cls c then
        match exec re' input' with
        | Some (n, caps) =>
          Some (S n, if captured then Some [c] :: caps else caps)
        | None => None
        end
      else None
    end
  end.

(** [str.replace(re, template)] for a global [re]: [rest] is what remains
    from [position] on, [skip] the code units of the current match still
    to be passed over.  An empty match advances by one code unit. *)
Fixpoint replace_from (re : RegExp) (template str : jsstring)
    (position skip : nat) (rest : jsstring) : jsstring :=
  match rest with
  | [] =>
    match skip, exec re [] with
    | O, Some (_, captures) => GetSubstitution [] str position captures template
    | _, _ => []
    end
  | c :: rest' =>
    match skip with
    | S k => replace_from re template str (S position) k rest'
    | O =>
      match exec re rest with
      | None => c :: replace_from re template str (S position) 0 rest'
      | Some (O, captures) =>
        GetSubstitution [] str position captures template
          ++ c :: replace_from re template str (S position) 0 rest'
      | Some (S k, captures) =>
        GetSubstitution (firstn (S k) rest) str position captures template
          ++ replace_from re template str (S position) k rest'
      end
    end
  end.

Definition replace (str : jsstring) (re : RegExp) (template : jsstring) : jsstring :=
  replace_from re template str 0 0 str.

(** *** Arrays and loose values *)

(** [a[i]] for an integer [i]: [None] is [undefined]. *)
Definition item {A : Type} (a : list A) (i : Z) : option A :=
  if (i <? 0)%Z then None else nth_error a (Z.to_nat i).

(** [x || y] on possibly undefined strings: the empty string and
    [undefined] are falsy. *)
Definition or_else (x y : option jsstring) : option jsstring :=
  match x with
  | Some (_ :: _) => x
  | _ => y
  end.

(** The string a possibly undefined string contributes to a concatenation. *)
Definition ToString (x : option jsstring) : jsstring :=
  match x with
  | Some s => s
  | None => js "undefined"
  end.

(** A parameter with a default value: [None] is an omitted argument. *)
Definition default {A : Type} (d : A) (x : option A) : A :=
  match x with
  | Some a => a
  | None => d
  end.

(** Number::toString on an integer. *)
Definition Number_toString (n : Z) : jsstring :=
  js (NilZero.string_of_int (Z.to_int n)).

(** *** split *)

Fixpoint startsWith (str searchString : jsstring) : bool :=
  match searchString, str with
  | [], _ => true
  | _ :: _, [] => false
  | p :: searchString', c :: str' => (p =? c)%N && startsWith str' searchString'
  end.

(** The pieces of a string cut at each occurrence of a non-empty
    [separator], found from left to right; [skip] counts the code units of
    the separator still to be passed over. *)
Fixpoint split_from (separator : jsstring) (skip : nat) (piece rest : jsstring)
    : list jsstring :=
  match rest with
  | [] => [piece]
  | c :: rest' =>
    match skip with
    | S k => split_from separator k piece rest'
    | O =>
      if startsWith rest separator
      then piece :: split_from separator (length separator - 1) [] rest'
      else split_from separator 0 (piece ++ [c]) rest'
    end
  end.

(** [str.split(separator)]: an empty separator yields the code units. *)
Definition split (str separator : jsstring) : list jsstring :=
  match separator with
  | [] => map (fun c => [c]) str
  | _ :: _ => split_from separator 0 [] str
  end.

(** *** Numeric coercion of a string *)

(** The outcome of [+str]: [Finite neg m e] is the double nearest to
    (+/-) m * 10^e, which is finite. *)
Inductive Number :=
| NaN
| Infinity (negative : bool)
| Finite (negative : bool) (mantissa : N) (exponent : Z).

Definition isNaN (x : Number) : bool :=
  match x with NaN => true | _ => false end.

Definition isFinite (x : Number) : bool :=
  match x with Finite _ _ _ => true | _ => false end.

(** Least magnitude that rounds to an infinity: half an ulp above the
    largest double, the tie going to the even neighbour 2^1024. *)
Definition overflowThreshold : Z := (2 ^ 1024 - 2 ^ 970)%Z.

Definition overflows (mantissa : N) (exponent : Z) : bool :=
  if (0 <=? exponent)%Z
  then (overflowThreshold <=? Z.of_N mantissa * 10 ^ exponent)%Z
  else (overflowThreshold * 10 ^ (- exponent) <=? Z.of_N mantissa)%Z.

Definition NumberValue (negative : bool) (mantissa : N) (exponent : Z) : Number :=
  if overflows mantissa exponent then Infinity negative
  else Finite negative mantissa exponent.

Fixpoint trimStart (s : jsstring) : jsstring :=
  match s with
  | [] => []
  | c :: s' => if isStrWhiteSpaceChar c then trimStart s' else s
  end.

Definition trim (s : jsstring) : jsstring :=
  rev (trimStart (rev (trimStart s))).

(** The longest prefix in a class, and what follows it. *)
Fixpoint span (cls : CharClass) (s : jsstring) : jsstring * jsstring :=
  match s with
  | [] => ([], [])
  | c :: s' =>
    if cls c then let '(p, r) := span cls s' in (c :: p, r) else ([], s)
  end.

Definition isHexDigit (c : code_unit) : bool :=
  isDecimalDigit c || between 97 102 c || between 65 70 c.
Definition isOctalDigit (c : code_unit) : bool := between 48 55 c.
Definition isBinaryDigit (c : code_unit) : bool := between 48 49 c.

Definition hexValue (c : code_unit) : N :=
  (if between 97 102 c then c - 87
   else if between 65 70 c then c - 55
   else c - 48)%N.

Fixpoint digitsValue (radix acc : N) (digits : jsstring) : N :=
  match digits with
  | [] => acc
  | d :: digits' => digitsValue radix (acc * radix + hexValue d)%N digits'
  end.

Definition signOf (s : jsstring) : bool * jsstring :=
  match s with
  | c :: s' =>
    if (c =? cu "+")%N then (false, s')
    else if (c =? cu "-")%N then (true, s')
    else (false, s)
  | [] => (false, s)
  end.

(** ExponentPart, optional, up to the end of the literal. *)
Definition parseExponent (s : jsstring) : option Z :=
  match s with
  | [] => Some 0%Z
  | c :: s1 =>
    if ((c =? cu "e") || (c =? cu "E"))%N then
      let '(negative, s2) := signOf s1 in
      match span isDecimalDigit s2 with
      | ((_ :: _) as ds, []) =>
        let e := Z.of_N (digitsValue 10 0 ds) in
        Some (if negative then - e else e)%Z
      | _ => None
      end
    else None
  end.

(** StrUnsignedDecimalLiteral other than [Infinity]: digits with an
    optional fraction and exponent, at least one digit around the dot. *)
Definition parseUnsignedDecimal (s : jsstring) : option (N * Z) :=
  let '(ip, s1) := span isDecimalDigit s in
  let '(fp, s2) :=
    match s1 with
    | c :: s1' => if (c =? cu ".")%N then span isDecimalDigit s1' else ([], s1)
    | [] => ([], s1)
    end in
  match ip ++ fp with
  | [] => None
  | (_ :: _) as ds =>
    match parseExponent s2 with
    | Some e => Some (digitsValue 10 0 ds, (e - Z.of_nat (length fp))%Z)
    | None => None
    end
  end.

(** NonDecimalIntegerLiteral: [0x], [0o] or [0b] and digits, unsigned. *)
Definition parseNonDecimal (s : jsstring) : option N :=
  match s with
  | z :: x :: ((_ :: _) as ds) =>
    if (z =? cu "0")%N then
      if ((x =? cu "x") || (x =? cu "X"))%N then
        if forallb isHexDigit ds then Some (digitsValue 16 0 ds) else None
      else if ((x =? cu "o") || (x =? cu "O"))%N then
        if forallb isOctalDigit ds then Some (digitsValue 8 0 ds) else None
      else if ((x =? cu "b") || (x =? cu "B"))%N then
        if forallb isBinaryDigit ds then Some (digitsValue 2 0 ds) else None
      else None
    else None
  | _ => None
  end.

(** StringToNumber: white space around the literal is dropped, nothing
    left is zero, and a text outside the grammar is not a number. *)
Definition StringToNumber (str : jsstring) : Number :=
  match trim str with
  | [] => Finite false 0 0
  | (_ :: _) as literal =>
    match parseNonDecimal literal with
    | Some m => NumberValue false m 0
    | None =>
      let '(negative, unsigned) := signOf literal in
      if strict_eq unsigned (js "Infinity") then Infinity negative
      else
        match parseUnsignedDecimal unsigned with
        | Some (m, e) => NumberValue negative m e
        | None => NaN
        end
    end
  end.

(** *** join, parseInt and sort *)

(** [a.join(separator)] on strings. *)
Fixpoint join (a : list jsstring) (separator : jsstring) : jsstring :=
  match a with
  | [] => []
  | [s] => s
  | s :: rest => s ++ separator ++ join rest separator
  end.

(** [join] on an array with holes of [undefined], which count as empty. *)
Definition join_values (a : list (option jsstring)) (separator : jsstring)
    : jsstring :=
  join (map (fun x => match x with Some s => s | None => [] end) a) separator.

(** [parseInt(string)] without a radix: white space and a sign are passed
    over, a [0x] prefix selects radix 16, and the longest run of digits of
    the radix is the value; [None] is NaN. *)
Definition parseInt (string : jsstring) : option Z :=
  let '(negative, s) := signOf (trimStart string) in
  let '(radix, cls, s) :=
    match s with
    | z :: x :: s' =>
      if ((z =? cu "0") && ((x =? cu "x") || (x =? cu "X")))%N
      then (16%N, isHexDigit, s')
      else (10%N, isDecimalDigit, s)
    | _ => (10%N, isDecimalDigit, s)
    end in
  match span cls s with
  | ([], _) => None
  | ((_ :: _) as ds, _) =>
    let v := Z.of_N (digitsValue radix 0 ds) in
    Some (if negative then - v else v)%Z
  end.

(** [a.sort(comparefn)], by insertion: [precedes x y] says that the
    comparison does not put [x] after [y].  With a consistent comparison
    the outcome is the same for every method. *)
Fixpoint insert {A : Type} (precedes : A -> A -> bool) (x : A) (a : list A)
    : list A :=
  match a with
  | [] => [x]
  | y :: a' => if precedes x y then x :: a else y :: insert precedes x a'
  end.

Definition sort {A : Type} (precedes : A -> A -> bool) (a : list A) : list A :=
  fold_right (insert precedes) [] a.

(** [x < y] on strings: the first differing code unit decides, a proper
    prefix comes first. *)
Fixpoint lessThan (x y : jsstring) : bool :=
  match x, y with
  | _, [] => false
  | [], _ :: _ => true
  | a :: x', b :: y' =>
    if (a <? b)%N then true else if (b <? a)%N then false else lessThan x' y'
  end.

(** The order of [sort()] without a comparison, on strings. *)
Definition defaultOrder (x y : jsstring) : bool := negb (lessThan y x).

(** [str.slice(start)] *)
Definition slice_from (str : jsstring) (start : Z) : jsstring :=
  slice str start (Z.of_nat (length str)).

(** [str.endsWith(searchString)] *)
Definition endsWith (str searchString : jsstring) : bool :=
  if (length searchString <=? length str)%nat
  then strict_eq (skipn (length str - length searchString) str) searchString
  else false.

(** [str.replace(re, replacer)] for a global [re] and a function called
    with the match, the captures, the position and the string. *)
Fixpoint replace_with_from (re : RegExp)
    (replacer : jsstring -> list (option jsstring) -> nat -> jsstring -> jsstring)
    (str : jsstring) (position skip : nat) (rest : jsstring) : jsstring :=
  match rest with
  | [] =>
    match skip, exec re [] with
    | O, Some (_, captures) => replacer [] captures position str
    | _, _ => []
    end
  | c :: rest' =>
    match skip with
    | S k => replace_with_from re replacer str (S position) k rest'
    | O =>
      match exec re rest with
      | None => c :: replace_with_from re replacer str (S position) 0 rest'
      | Some (O, captures) =>
        replacer [] captures position str
          ++ c :: replace_with_from re replacer str (S position) 0 rest'
      | Some (S k, captures) =>
        replacer (firstn (S k) rest) captures position str
          ++ replace_with_from re replacer str (S position) k rest'
      end
    end
  end.

Definition replace_with (str : jsstring) (re : RegExp)
    (replacer : jsstring -> list (option jsstring) -> nat -> jsstring -> jsstring)
    : jsstring :=
  replace_with_from re replacer str 0 0 str.

(** *** Regular expressions with repetition, groups and anchors *)

Inductive Pattern :=
| Unit (cls : CharClass)
| Then (p q : Pattern)
| Star (p : Pattern)
| Group (i : nat) (p : Pattern)
| AtStart
| AtEnd.

(** [p+] *)
Definition Plus (p : Pattern) : Pattern := Then p (Star p).

(** Where a match attempt stands: the index in the string, what is left
    of it from there, and the groups captured so far. *)
Record MatchState := mkMatchState {
  index : nat;
  remaining : jsstring;
  groups : list (option jsstring)
}.

Fixpoint setGroup (i : nat) (text : jsstring) (captures : list (option jsstring))
    : list (option jsstring) :=
  match captures, i with
  | [], _ => []
  | _ :: rest, O => Some text :: rest
  | g :: rest, S i' => g :: setGroup i' text rest
  end.

(** The backtracking matcher: [run p k x] matches [p] from the state [x]
    and hands the state reached to the continuation [k]; a failure of [k]
    sends the matcher back to its last choice.  [p*] is greedy, and an
    iteration that consumes nothing is refused. *)
Fixpoint run (p : Pattern) (k : MatchState -> option MatchState) (x : MatchState)
    {struct p} : option MatchState :=
  match p with
  | Unit cls =>
    match remaining x with
    | c :: r => if cls c then k (mkMatchState (S (index x)) r (groups x)) else None
    | [] => None
    end
  | Then p1 p2 => run p1 (run p2 k) x
  | Star p1 =>
    (fix iterate (fuel : nat) (x : MatchState) {struct fuel} : option MatchState :=
       match fuel with
       | O => k x
       | S fuel' =>
         match run p1
                 (fun y =>
                    if (length (remaining y) <? length (remaining x))%nat
                    then iterate fuel' y else None) x with
         | Some z => Some z
         | None => k x
         end
       end) (length (remaining x)) x
  | Group i p1 =>
    run p1
      (fun y =>
         k (mkMatchState (index y) (remaining y)
              (setGroup (i - 1)
                 (firstn (length (remaining x) - length (remaining y)) (remaining x))
                 (groups y)))) x
  | AtStart => if (index x =? 0)%nat then k x else None
  | AtEnd => match remaining x with [] => k x | _ :: _ => None end
  end.

(** A match of [p], with [count] groups, at [position], where [rest] is
    left of the string: the number of code units matched and the captures. *)
Definition matchAt (p : Pattern) (count position : nat) (rest : jsstring)
    : option (nat * list (option jsstring)) :=
  match run p Some (mkMatchState position rest (repeat None count)) with
  | Some y => Some ((length rest - length (remaining y))%nat, groups y)
  | None => None
  end.

(** The skeleton of a global replacement: [find] looks for a match at a
    position, [substitute] gives what replaces it. *)
Fixpoint replace_by
    (find : nat -> jsstring -> option (nat * list (option jsstring)))
    (substitute : jsstring -> list (option jsstring) -> nat -> jsstring)
    (position skip : nat) (rest : jsstring) : jsstring :=
  match rest with
  | [] =>
    match skip, find position [] with
    | O, Some (_, captures) => substitute [] captures position
    | _, _ => []
    end
  | c :: rest' =>
    match skip with
    | S k => replace_by find substitute (S position) k rest'
    | O =>
      match find position rest with
      | None => c :: replace_by find substitute (S position) 0 rest'
      | Some (O, captures) =>
        substitute [] captures position
          ++ c :: replace_by find substitute (S position) 0 rest'
      | Some (S k, captures) =>
        substitute (firstn (S k) rest) captures position
          ++ replace_by find substitute (S position) k rest'
      end
    end
  end.

(** [str.replace(p, template)] for a global pattern [p] with [count]
    groups. *)
Definition replacePattern (str : jsstring) (p : Pattern) (count : nat)
    (template : jsstring) : jsstring :=
  replace_by (matchAt p count)
    (fun matched captures position =>
       GetSubstitution matched str position captures template)
    0 0 str.

(** The first position from [position] on where [p] matches, if any. *)
Fixpoint search (p : Pattern) (count position : nat) (rest : jsstring) : bool :=
  match matchAt p count position rest with
  | Some _ => true
  | None =>
    match rest with
    | [] => false
    | _ :: rest' => search p count (S position) rest'
    end
  end.

(** [p.test(str)] for a pattern without the [g] flag. *)
Definition test (p : Pattern) (count : nat) (str : jsstring) : bool :=
  search p count 0 str.

End JS.

Import JS.

(** ** string.ts *)

Module string_ts.

Section Host.

(** [String.prototype.toLowerCase] of the host. *)
Variable toLowerCase : jsstring -> jsstring.

(** [str.replace(/([a-z])([A-Z])/g, "$1-$2").toLowerCase()] *)
Definition kebabCase (str : jsstring) : jsstring :=
  toLowerCase
    (replace str [group (range "a" "z"); group (range "A" "Z")] (js "$1-$2")).

(** [str === kebabCase(str)] *)
Definition isKebabCase (str : jsstring) : bool :=
  strict_eq str (kebabCase str).

End Host.

(** [suffix] defaults to three dots; past [maxLength] the result is
    [str.slice(0, maxLength - suffix.length) + suffix]. *)
Definition truncate (str : jsstring) (maxLength : Z) (suffix : option jsstring)
    : jsstring :=
  let suffix := default (js "...") suffix in
  if (Z.of_nat (length str) >? maxLength)%Z
  then slice str 0 (maxLength - Z.of_nat (length suffix)) ++ suffix
  else str.

(** [str.replace(/./g, maskChar)], [maskChar] defaulting to a star. *)
Definition mask (str : jsstring) (maskChar : option jsstring) : jsstring :=
  let maskChar := default (js "*") maskChar in
  replace str [plain dot] maskChar.

(** [str.replace(/</g, "&lt;").replace(/>/g, "&gt;")] *)
Definition xssSafe (str : jsstring) : jsstring :=
  replace (replace str [plain (lit "<")] (js "&lt;")) [plain (lit ">")] (js "&gt;").

(** The same after [str.replace(/&/g, "&amp;")]. *)
Definition htmlSafe (str : jsstring) : jsstring :=
  replace
    (replace (replace str [plain (lit "&")] (js "&amp;"))
       [plain (lit "<")] (js "&lt;"))
    [plain (lit ">")] (js "&gt;").

(** [str.split(subStr).length - 1] *)
Definition totalOccurrences (str subStr : jsstring) : Z :=
  (Z.of_nat (length (split str subStr)) - 1)%Z.

(** [!isNaN(+str)] *)
Definition isNumeric (str : jsstring) : bool :=
  negb (isNaN (StringToNumber str)).

(** *** The rest of the module, where it can be embedded *)

(** [str.startsWith(prefix) ? str.slice(prefix.length) : str] *)
Definition removePrefix (str prefix : jsstring) : jsstring :=
  if startsWith str prefix
  then slice_from str (Z.of_nat (length prefix))
  else str.

(** [str.endsWith(suffix) ? str.slice(0, -suffix.length) : str] *)
Definition removeSuffix (str suffix : jsstring) : jsstring :=
  if endsWith str suffix
  then slice str 0 (- Z.of_nat (length suffix))
  else str.

Section HostCase.

Variable toLowerCase : jsstring -> jsstring.
Variable toUpperCase : jsstring -> jsstring.

(** [str.replace(/-([a-z])/g, (g) => g[1].toUpperCase())]; [g[1]] is
    always there, the match having two code units. *)
Definition camelCase (str : jsstring) : jsstring :=
  replace_with str [plain (lit "-"); group (range "a" "z")]
    (fun g _ _ _ =>
       match item g 1 with
       | Some c => toUpperCase [c]
       | None => []
       end).

(** [str === camelCase(str)] *)
Definition isCamelCase (str : jsstring) : bool :=
  strict_eq str (camelCase str).

(** [kebabCase(str).replace(/-/g, "_")] *)
Definition snakeCase (str : jsstring) : jsstring :=
  replace (kebabCase toLowerCase str) [plain (lit "-")] (js "_").

(** [str === snakeCase(str)] *)
Definition isSnakeCase (str : jsstring) : bool :=
  strict_eq str (snakeCase str).

End HostCase.

(** [str.split("").reverse().join("")] *)
Definition reverse (str : jsstring) : jsstring :=
  join (rev (split str [])) [].

(** [str === reverse(str)] *)
Definition isPalindrome (str : jsstring) : bool :=
  strict_eq str (reverse str).

(** [str1.split("").sort().join() === str2.split("").sort().join()]; the
    separator of [join()] is a comma. *)
Definition isAnagram (str1 str2 : jsstring) : bool :=
  strict_eq (join (sort defaultOrder (split str1 [])) (js ","))
            (join (sort defaultOrder (split str2 [])) (js ",")).

Definition isAlphaNumericUnit (c : code_unit) : bool :=
  range "a" "z" c || range "A" "Z" c || range "0" "9" c.

Definition isAlphaUnit (c : code_unit) : bool :=
  range "a" "z" c || range "A" "Z" c.

(** [str.replace(/[^a-zA-Z0-9]/g, "")] *)
Definition removeNonAlphaNumeric (str : jsstring) : jsstring :=
  replace str [plain (fun c => negb (isAlphaNumericUnit c))] [].

(** [str.replace(/[^0-9]/g, "")] *)
Definition removeNonNumeric (str : jsstring) : jsstring :=
  replace str [plain (fun c => negb (range "0" "9" c))] [].

(** [str.replace(/[^a-zA-Z]/g, "")] *)
Definition removeNonAlpha (str : jsstring) : jsstring :=
  replace str [plain (fun c => negb (isAlphaUnit c))] [].

(** [\s] *)
Definition whiteSpace : CharClass := isStrWhiteSpaceChar.

(** [str.replace(/\s+/g, " ")] *)
Definition normalizeWhitespace (str : jsstring) : jsstring :=
  replacePattern str (Plus (Unit whiteSpace)) 0 (js " ").

(** [str.replace(/\s+/g, "")] *)
Definition removeWhitespace (str : jsstring) : jsstring :=
  replacePattern str (Plus (Unit whiteSpace)) 0 [].

(** [str.trim().replace(/\s+/g, " ")] *)
Definition removeExtraWhitespace (str : jsstring) : jsstring :=
  replacePattern (trim str) (Plus (Unit whiteSpace)) 0 (js " ").

(** [/<[^>]*>/] *)
Definition tagPattern : Pattern :=
  Then (Unit (lit "<"))
    (Then (Star (Unit (fun c => negb (lit ">" c)))) (Unit (lit ">"))).

(** [str.replace(/<[^>]*>/g, "")] *)
Definition removeHtmlTags (str : jsstring) : jsstring :=
  replacePattern str tagPattern 0 [].

(** [/^[a-zA-Z]+$/.test(str)] *)
Definition isAlpha (str : jsstring) : bool :=
  test (Then AtStart (Then (Plus (Unit isAlphaUnit)) AtEnd)) 0 str.

(** [/^[a-zA-Z0-9]+$/.test(str)] *)
Definition isAlphaNumeric (str : jsstring) : bool :=
  test (Then AtStart (Then (Plus (Unit isAlphaNumericUnit)) AtEnd)) 0 str.

End string_ts.

(** ** number.ts *)

Module number_ts.

Local Open Scope Z_scope.

(** [numbers.reduce((acc, n) => acc + n, 0)] *)
Definition sum (numbers : list Z) : Z :=
  fold_left (fun acc n => acc + n) numbers 0.

(** The loop of [getDivisors],
    [for (let i = 1; i <= Math.floor(n / 2); i++) if (n % i === 0) divisors.push(i)],
    from the state [(i, divisors)] on.  It runs while the test holds, the
    distance from [i] to the bound going down. *)
Equations? getDivisors_loop (n i : Z) (divisors : list Z) : list Z
    by wf (Z.to_nat (n / 2 + 1 - i)) lt :=
  getDivisors_loop n i divisors with Z_le_dec i (n / 2) => {
    | left _ :=
      getDivisors_loop n (i + 1)
        (if Z.rem n i =? 0 then divisors ++ [i] else divisors);
    | right _ := divisors }.
Proof. lia. Qed.

Definition getDivisors (n : Z) : list Z := getDivisors_loop n 1 [].

(** [n === sum(...getDivisors(n))] *)
Definition isPerfect (n : Z) : bool := n =? sum (getDivisors n).

Definition suffixes : list jsstring := [js "th"; js "st"; js "nd"; js "rd"].

(** [n + (suffixes[(v - 20) % 10] || suffixes[v] || suffixes[0])] with
    [v = n % 100]. *)
Definition toOrdinal (n : Z) : jsstring :=
  let v := Z.rem n 100 in
  Number_toString n
    ++ ToString
         (or_else
            (or_else (item suffixes (Z.rem (v - 20) 10)) (item suffixes v))
            (item suffixes 0)).

(** [mod] of the source, [((n % m) + m) % m]; the name is reserved here. *)
Definition mod_ (n m : Z) : Z := Z.rem (Z.rem n m + m) m.

(** *** The rest of the module

    A result that the code can make not-a-number is an [option Z], [None]
    standing for NaN. *)

(** [n % 2 === 0] *)
Definition isEven (n : Z) : bool := Z.rem n 2 =? 0.

(** [!isEven(n)] *)
Definition isOdd (n : Z) : bool := negb (isEven n).

(** [numbers.length ? Math.max(...numbers) : NaN] *)
Definition max (numbers : list Z) : option Z :=
  match numbers with
  | [] => None
  | x :: rest => Some (fold_left Z.max rest x)
  end.

(** [numbers.length ? Math.min(...numbers) : NaN] *)
Definition min (numbers : list Z) : option Z :=
  match numbers with
  | [] => None
  | x :: rest => Some (fold_left Z.min rest x)
  end.


(** [a + b] on results that may be NaN. *)
Definition plus (a b : option Z) : option Z :=
  match a, b with
  | Some x, Some y => Some (x + y)
  | _, _ => None
  end.


(** The loop of [isPrime],
    [for (let i = 2; i <= Math.sqrt(n); i++) if (n % i === 0) return false],
    then [return true].  For integers, [i <= Math.sqrt(n)] is
    [i <= floor(sqrt n)]. *)
Equations? isPrime_loop (n i : Z) : bool by wf (Z.to_nat (Z.sqrt n + 1 - i)) lt :=
  isPrime_loop n i with Z_le_dec i (Z.sqrt n) => {
    | left _ := if Z.rem n i =? 0 then false else isPrime_loop n (i + 1);
    | right _ := true }.
Proof. lia. Qed.

(** [if (n < 2) return false] and the loop. *)
Definition isPrime (n : Z) : bool :=
  if n <? 2 then false else isPrime_loop n 2.

(** The inner loop of [getPrimeFactors],
    [while (n % i === 0) { factors.push(i); n /= i; }], from the state
    [(n, factors)] on; the division is exact where it is made.  [None] when
    the steps allowed run out. *)
Fixpoint getPrimeFactors_while (fuel : nat) (n i : Z) (factors : list Z)
    : option (Z * list Z) :=
  match fuel with
  | O => None
  | S fuel' =>
    if Z.rem n i =? 0
    then getPrimeFactors_while fuel' (n / i) i (factors ++ [i])
    else Some (n, factors)
  end.

(** The outer loop, [for (let i = 2; i <= n; i++) { while ... }]. *)
Fixpoint getPrimeFactors_for (fuel : nat) (n i : Z) (factors : list Z)
    : option (list Z) :=
  match fuel with
  | O => None
  | S fuel' =>
    if i <=? n then
      match getPrimeFactors_while (S (Z.to_nat n)) n i factors with
      | Some (n', factors') => getPrimeFactors_for fuel' n' (i + 1) factors'
      | None => None
      end
    else Some factors
  end.

(** [getPrimeFactors n], allowed as many rounds as [n] can need. *)
Definition getPrimeFactors (n : Z) : option (list Z) :=
  getPrimeFactors_for (S (Z.to_nat n)) n 2 [].

(** [min(max(n, minN), maxN)]; a NaN goes through [Math.min]. *)
Definition clamp (n minN maxN : Z) : option Z :=
  match max [n; minN] with
  | Some v => min [v; maxN]
  | None => None
  end.

(** [start <= n && n < end] *)
Definition inRange (n start finish : Z) : bool :=
  (start <=? n) && (n <? finish).

Definition words : list jsstring :=
  [js "zero"; js "one"; js "two"; js "three"; js "four"; js "five";
   js "six"; js "seven"; js "eight"; js "nine"].

(** [n.toString().split("").map((d) => words[parseInt(d)]).join(" ")] *)
Definition toWords (n : Z) : jsstring :=
  join_values
    (map (fun d => match parseInt d with
                   | Some k => item words k
                   | None => None
                   end)
       (split (Number_toString n) []))
    (js " ").

(** [sum], on arguments that may be [undefined] or NaN. *)
Definition sum_values (numbers : list (option Z)) : option Z :=
  fold_left plus numbers (Some 0).

(** [sum(...numbers) / numbers.length]: the exact quotient, where the
    code has the double nearest to it (the same number when the count is a
    power of two); nothing divided by zero is NaN. *)
Definition average (numbers : list (option Z)) : option QArith_base.Q :=
  match sum_values numbers, length numbers with
  | Some s, S k => Some (QArith_base.Qmake s (Pos.of_succ_nat k))
  | _, _ => None
  end.

(** [numbers.sort((a, b) => a - b)], then the middle of the sorted
    numbers: [average(sorted[middle - 1], sorted[middle])] for an even
    count, [sorted[middle]] for an odd one. *)
Definition median (numbers : list Z) : option QArith_base.Q :=
  let sorted := sort (fun a b => a - b <=? 0) numbers in
  let middle := Z.of_nat (length sorted) / 2 in
  if isEven (Z.of_nat (length sorted))
  then average [item sorted (middle - 1); item sorted middle]
  else option_map QArith_base.inject_Z (item sorted middle).

End number_ts.

Import string_ts number_ts.

(** ** Reference definitions

    What the functions are meant to compute, written independently of
    the code above. *)

Module Spec.




(** One escape per character of the input. *)
Definition escapeAngle (c : code_unit) : jsstring :=
  if (c =? cu "<")%N then js "&lt;"
  else if (c =? cu ">")%N then js "&gt;"
  else [c].

Definition escapeAmp (c : code_unit) : jsstring :=
  if (c =? cu "&")%N then js "&amp;" else [c].

Definition escape (c : code_unit) : jsstring :=
  if (c =? cu "&")%N then js "&amp;" else escapeAngle c.

(** Lower-casing of the letters A-Z alone: what the host's [toLowerCase]
    does on ASCII text. *)
Definition asciiLower (s : jsstring) : jsstring :=
  map (fun c => if range "A" "Z" c then (c + 32)%N else c) s.

(** *** The grammar of numeric strings (StringNumericLiteral) *)

Definition all (cls : CharClass) (s : jsstring) : Prop :=
  Forall (fun c => cls c = true) s.

Definition notWhite : CharClass := fun c => negb (isStrWhiteSpaceChar c).

Definition isSign : CharClass :=
  fun c => ((c =? cu "+") || (c =? cu "-"))%N.

(** The head of a string, if any, is outside a class. *)
Definition headNot (cls : CharClass) (s : jsstring) : Prop :=
  match s with
  | [] => True
  | c :: _ => cls c = false
  end.

Definition optional (P : jsstring -> Prop) (s : jsstring) : Prop :=
  s = [] \/ P s.

(** One or more decimal digits. *)
Definition DecimalDigits (ds : jsstring) : Prop :=
  ds <> [] /\ all isDecimalDigit ds.

Inductive Sign : jsstring -> Prop :=
| no_sign : Sign []
| plus_sign : Sign [cu "+"]
| minus_sign : Sign [cu "-"].

Inductive ExponentPart : jsstring -> Prop :=
| exponent_part e sign ds :
    e = cu "e" \/ e = cu "E" -> Sign sign -> DecimalDigits ds ->
    ExponentPart (e :: sign ++ ds).

Inductive StrUnsignedDecimalLiteral : jsstring -> Prop :=
| literal_Infinity : StrUnsignedDecimalLiteral (js "Infinity")
| literal_point ip fp ex :
    DecimalDigits ip -> optional DecimalDigits fp -> optional ExponentPart ex ->
    StrUnsignedDecimalLiteral (ip ++ cu "." :: fp ++ ex)
| literal_fraction fp ex :
    DecimalDigits fp -> optional ExponentPart ex ->
    StrUnsignedDecimalLiteral (cu "." :: fp ++ ex)
| literal_integer ip ex :
    DecimalDigits ip -> optional ExponentPart ex ->
    StrUnsignedDecimalLiteral (ip ++ ex).

Inductive StrDecimalLiteral : jsstring -> Prop :=
| signed_literal sign u :
    Sign sign -> StrUnsignedDecimalLiteral u -> StrDecimalLiteral (sign ++ u).

Inductive NonDecimalIntegerLiteral : jsstring -> Prop :=
| hex_literal x ds :
    x = cu "x" \/ x = cu "X" -> ds <> [] -> all isHexDigit ds ->
    NonDecimalIntegerLiteral (cu "0" :: x :: ds)
| octal_literal x ds :
    x = cu "o" \/ x = cu "O" -> ds <> [] -> all isOctalDigit ds ->
    NonDecimalIntegerLiteral (cu "0" :: x :: ds)
| binary_literal x ds :
    x = cu "b" \/ x = cu "B" -> ds <> [] -> all isBinaryDigit ds ->
    NonDecimalIntegerLiteral (cu "0" :: x :: ds).

Definition StrNumericLiteral (s : jsstring) : Prop :=
  StrDecimalLiteral s \/ NonDecimalIntegerLiteral s.

(** White space alone, or a literal with optional white space around. *)
Inductive StringNumericLiteral : jsstring -> Prop :=
| blank_string w :
    all isStrWhiteSpaceChar w -> StringNumericLiteral w
| numeric_string w1 l w2 :
    all isStrWhiteSpaceChar w1 -> StrNumericLiteral l ->
    all isStrWhiteSpaceChar w2 ->
    StringNumericLiteral (w1 ++ l ++ w2).

(** *** Reference definitions for the rest of the modules *)



(** The product of a list. *)
Definition product (l : list Z) : Z := fold_right Z.mul 1%Z l.

(** [camelCase] as one pass: a hyphen followed by a letter a-z gives the
    capital of the letter. *)
Fixpoint camel (s : jsstring) : jsstring :=
  match s with
  | [] => []
  | c :: t =>
    match t with
    | d :: r =>
      if lit "-" c && range "a" "z" d then (d - 32)%N :: camel r
      else c :: camel t
    | [] => [c]
    end
  end.

(** Upper-casing of the letters a-z alone: what the host's [toUpperCase]
    does on ASCII text. *)
Definition asciiUpper (s : jsstring) : jsstring :=
  map (fun c => if range "a" "z" c then (c - 32)%N else c) s.

(** Every run of white space replaced by [text]; [inRun] says that the
    code unit before was white space. *)
Fixpoint squeeze (text : jsstring) (inRun : bool) (s : jsstring) : jsstring :=
  match s with
  | [] => []
  | c :: r =>
    if isStrWhiteSpaceChar c
    then (if inRun then squeeze text true r else text ++ squeeze text true r)
    else c :: squeeze text false r
  end.

(** The last code unit of a string, if any, is outside a class. *)
Fixpoint lastNot (cls : CharClass) (s : jsstring) : Prop :=
  match s with
  | [] => True
  | c :: r =>
    match r with
    | [] => cls c = false
    | _ :: _ => lastNot cls r
    end
  end.

End Spec.

(** ** Proof automation *)

(** Turns the character tests of the hypotheses and of the goal into
    comparisons of code units. *)
Ltac units :=
  unfold Spec.notWhite, isStrWhiteSpaceChar, isHexDigit, isOctalDigit,
    isBinaryDigit, isDecimalDigit, between, cu in *;
  cbn [N_of_ascii N_of_digits] in *;
  rewrite ?negb_true_iff, ?negb_false_iff in *;
  rewrite ?orb_true_iff, ?orb_false_iff, ?andb_true_iff, ?andb_false_iff,
    ?N.leb_le, ?N.leb_gt, ?N.eqb_eq, ?N.eqb_neq in *;
  try lia.

(** Evaluates the tests of the goal that mention no variable. *)
Ltac closed_tests :=
  repeat match goal with
  | |- context [if ?c then _ else _] =>
    let v := eval vm_compute in c in
    first [constr_eq v true | constr_eq v false];
    change c with v; cbv iota
  end.

(** ** The documented examples, run on the embedding *)

Section Examples.

Example mask_hello : mask (js "hello world") None = js "***********".
Proof. reflexivity. Qed.

Example xssSafe_script :
  xssSafe (js "<script>alert('hello world')</script>")
  = js "&lt;script&gt;alert('hello world')&lt;/script&gt;".
Proof. reflexivity. Qed.

Example totalOccurrences_hello : totalOccurrences (js "hello world") (js "l") = 3%Z.
Proof. reflexivity. Qed.

Example isNumeric_samples :
  map isNumeric [js "hello world"; js "123"; js " -12.5e3 "; js "0x1F"; js "12px"; js "1e"; []]
  = [false; true; true; true; false; false; true].
Proof. reflexivity. Qed.

Example StringToNumber_samples :
  map StringToNumber [js "123"; js "-.5"; js "1e999"; js "-Infinity"; js "+0x10"]
  = [Finite false 123 0; Finite true 5 (-1); Infinity false; Infinity true; NaN].
Proof. vm_compute. reflexivity. Qed.

(** The largest double and the first decimal beyond the rounding limit. *)
Example StringToNumber_limit :
  isFinite (StringToNumber (js "1.7976931348623158e308")) = true
  /\ StringToNumber (js "1.7976931348623159e308") = Infinity false.
Proof. split; vm_compute; reflexivity. Qed.

Example kebabCase_helloWorld :
  kebabCase Spec.asciiLower (js "helloWorld fooBarBaz") = js "hello-world foo-bar-baz".
Proof. reflexivity. Qed.

Example replace_template :
  replace (js "fooBar bazQux") [group (range "a" "z"); group (range "A" "Z")]
    (js "$2-$1$$$&")
  = js "foB-o$oBar baQ-z$zQux".
Proof. reflexivity. Qed.

Example getDivisors_4 : getDivisors 4 = [1; 2]%Z.
Proof. reflexivity. Qed.

Example toOrdinal_samples :
  map toOrdinal [1; 2; 3; 4; 11; 12; 13; 21; 101; 111]%Z
  = map js ["1st"; "2nd"; "3rd"; "4th"; "11th"; "12th"; "13th"; "21st"; "101st"; "111th"]%string.
Proof. reflexivity. Qed.

Example mod_samples : mod_ 5 3 = 2%Z /\ mod_ (-5) 3 = 1%Z.
Proof. split; reflexivity. Qed.

End Examples.

(** ** Properties of number.ts *)

Section NumberFacts.

Local Open Scope Z_scope.












Lemma getDivisors_nonpositive (n : Z) : n <= 0 -> getDivisors n = [].
Proof.
  intros Hn. unfold getDivisors. simp getDivisors_loop.
  destruct (Z_le_dec 1 (n / 2)) as [H|H]; simpl; [|reflexivity].
  exfalso. assert (n / 2 <= 0) by (apply Z.div_le_upper_bound; lia). lia.
Qed.

End NumberFacts.

Section NumberClaims.

Local Open Scope Z_scope.




(** *** The decimal representation of an integer *)

Lemma digitsValue_acc (d : Decimal.uint) (acc : positive) :
  digitsValue 10 (N.pos acc) (js (NilEmpty.string_of_uint d))
  = N.pos (Pos.of_uint_acc d acc).
Proof.
  revert acc. induction d as [|d IH|d IH|d IH|d IH|d IH|d IH|d IH|d IH|d IH|d IH];
    intros acc; [reflexivity|..];
    cbn [NilEmpty.string_of_uint Pos.of_uint_acc];
    rewrite <- IH; unfold js; cbn [list_ascii_of_string map digitsValue];
    f_equal; vm_compute hexValue; lia.
Qed.

Lemma digitsValue_of_uint (d : Decimal.uint) :
  digitsValue 10 0 (js (NilEmpty.string_of_uint d)) = Pos.of_uint d.
Proof.
  induction d as [|d IH|d IH|d IH|d IH|d IH|d IH|d IH|d IH|d IH|d IH];
    [reflexivity|exact IH|..]; apply digitsValue_acc.
Qed.

Lemma digits_of_uint (d : Decimal.uint) :
  Spec.all isDecimalDigit (js (NilEmpty.string_of_uint d)).
Proof.
  induction d; [constructor|..]; constructor; (reflexivity || assumption).
Qed.

Lemma Number_toString_decimal (n : Z) :
  (0 <= n)%Z ->
  Spec.all isDecimalDigit (Number_toString n)
  /\ digitsValue 10 0 (Number_toString n) = Z.to_N n.
Proof.
  intros Hn. destruct n as [|p|p]; [split; [repeat constructor|reflexivity]| |lia].
  unfold Number_toString. cbn [Z.to_int NilZero.string_of_int].
  assert (E : NilZero.string_of_uint (Pos.to_uint p)
              = NilEmpty.string_of_uint (Pos.to_uint p)).
  { pose proof (Unsigned.to_uint_nonnil p) as H.
    destruct (Pos.to_uint p); [contradiction|..]; reflexivity. }
  rewrite E. split; [apply digits_of_uint|].
  rewrite digitsValue_of_uint. apply DecimalPos.Unsigned.of_to.
Qed.







(** C10: for an integer [n <= 0], [getDivisors n] is empty, hence
    [isPerfect n] holds exactly when [n = 0]: zero counts as perfect and no
    negative number does. *)
Theorem getDivisors_nonpositive_empty (n : Z) :
  n <= 0 ->
  getDivisors n = [] /\ (isPerfect n = true <-> n = 0).
Proof.
  intros Hn. pose proof (getDivisors_nonpositive n Hn) as E. split; [exact E|].
  unfold isPerfect. rewrite E. unfold sum; simpl. apply Z.eqb_eq.
Qed.

Lemma getDivisors_nonpositive_empty_witness :
  (getDivisors 0 = [] /\ (isPerfect 0 = true <-> 0 = 0))
  /\ (getDivisors (-6) = [] /\ (isPerfect (-6) = true <-> -6 = 0)).
Proof.
  split.
  - apply (getDivisors_nonpositive_empty 0). lia.
  - apply (getDivisors_nonpositive_empty (-6)). lia.
Defined.

End NumberClaims.

(** ** Properties of string.ts *)

Section StringFacts.

Lemma strict_eq_true (a b : jsstring) : strict_eq a b = true <-> a = b.
Proof.
  unfold strict_eq. destruct (list_eq_dec N.eq_dec a b); split; intros; congruence.
Qed.

(** A template of one code unit stands for itself, a lone [$] included. *)
Lemma GetSubstitution_single matched str position captures (ch : code_unit) :
  GetSubstitution matched str position captures [ch] = [ch].
Proof.
  simpl. destruct (negb _); reflexivity.
Qed.

(** So does a template without any [$]. *)
Lemma GetSubstitution_literal matched str position captures (template : jsstring) :
  forallb (fun c => negb (c =? cu "$")%N) template = true ->
  GetSubstitution matched str position captures template = template.
Proof.
  induction template as [|c t IH]; intros H; [reflexivity|].
  cbn [forallb] in H. apply andb_true_iff in H. destruct H as [Hc Ht].
  cbn [GetSubstitution]. rewrite Hc. f_equal. apply IH, Ht.
Qed.

(** Global replacement of the members of one character class by a text
    that does not depend on the match. *)
Lemma replace_from_class (cls : CharClass) (template text str : jsstring) :
  (forall matched position, GetSubstitution matched str position [] template = text) ->
  forall rest position,
    replace_from [plain cls] template str position 0 rest
    = flat_map (fun c => if cls c then text else [c]) rest.
Proof.
  intros Ht. induction rest as [|c rest IH]; intros position; [reflexivity|].
  cbn [replace_from exec flat_map]. destruct (cls c).
  - rewrite Ht, IH. reflexivity.
  - rewrite IH. reflexivity.
Qed.

Lemma replace_class (cls : CharClass) (template : jsstring) (str : jsstring) :
  forallb (fun c => negb (c =? cu "$")%N) template = true ->
  replace str [plain cls] template
  = flat_map (fun c => if cls c then template else [c]) str.
Proof.
  intros H. apply replace_from_class. intros. now apply GetSubstitution_literal.
Qed.

Lemma flat_map_compose {A B C : Type} (f : A -> list B) (g : B -> list C) (l : list A) :
  flat_map g (flat_map f l) = flat_map (fun x => flat_map g (f x)) l.
Proof.
  induction l as [|x l IH]; simpl; [reflexivity|].
  rewrite flat_map_app, IH. reflexivity.
Qed.

Lemma mask_one_unit (str : jsstring) (ch : code_unit) :
  mask str (Some [ch]) = map (fun c => if isLineTerminator c then c else ch) str.
Proof.
  unfold mask, replace. cbn [default].
  rewrite (replace_from_class dot [ch] [ch]) by (intros; apply GetSubstitution_single).
  induction str as [|c s IH]; simpl; [reflexivity|].
  rewrite IH. unfold dot. destruct (isLineTerminator c); reflexivity.
Qed.

Lemma mask_length (str : jsstring) (ch : code_unit) :
  length (mask str (Some [ch])) = length str.
Proof. rewrite mask_one_unit. apply length_map. Qed.

Lemma mask_one_line (str : jsstring) (ch : code_unit) :
  forallb (fun c => negb (isLineTerminator c)) str = true ->
  mask str (Some [ch]) = repeat ch (length str).
Proof.
  rewrite mask_one_unit. induction str as [|c s IH]; simpl; intros H; [reflexivity|].
  apply andb_true_iff in H. destruct H as [Hc Hs].
  apply negb_true_iff in Hc. rewrite Hc, IH by assumption. reflexivity.
Qed.

Lemma slice_firstn (str : jsstring) (k : Z) :
  (0 <= k)%Z -> slice str 0 k = firstn (Z.to_nat k) str.
Proof.
  intros Hk. unfold slice. cbv zeta.
  replace (0 <? 0)%Z with false by reflexivity.
  replace (k <? 0)%Z with false by (symmetry; apply Z.ltb_ge; lia).
  rewrite (Z.min_l 0) by lia. simpl skipn. rewrite Z.sub_0_r.
  destruct (Z.le_ge_cases k (Z.of_nat (length str))) as [H|H].
  - rewrite Z.min_l by lia. reflexivity.
  - rewrite Z.min_r by lia. rewrite Nat2Z.id.
    rewrite !firstn_all2; [reflexivity|lia|lia].
Qed.

End StringFacts.

Section StringClaims.

Lemma xssSafe_flat_map (s : jsstring) : xssSafe s = flat_map Spec.escapeAngle s.
Proof.
  unfold xssSafe. rewrite !replace_class by reflexivity.
  rewrite flat_map_compose. apply flat_map_ext. intros c.
  unfold Spec.escapeAngle, lit.
  destruct (N.eqb_spec (cu "<") c) as [<-|H]; [reflexivity|].
  replace (c =? cu "<")%N with false by (symmetry; apply N.eqb_neq; congruence).
  cbn [flat_map]. rewrite app_nil_r, (N.eqb_sym (cu ">")). reflexivity.
Qed.

Lemma escapeAmp_flat_map (s : jsstring) :
  replace s [plain (lit "&")] (js "&amp;") = flat_map Spec.escapeAmp s.
Proof.
  rewrite replace_class by reflexivity. apply flat_map_ext. intros c.
  unfold Spec.escapeAmp, lit. rewrite (N.eqb_sym (cu "&")). reflexivity.
Qed.

(** C3: [htmlSafe] escapes the ampersand first and the angle brackets
    after it: it is [xssSafe] applied to the input with every [&] turned into
    [&amp;], and each character of the input ends up escaped exactly once,
    the ampersands written by the first step being left alone. *)
Theorem htmlSafe_ampersand_first (s : jsstring) :
  replace s [plain (lit "&")] (js "&amp;") = flat_map Spec.escapeAmp s
  /\ (forall t, xssSafe t = flat_map Spec.escapeAngle t)
  /\ htmlSafe s = xssSafe (replace s [plain (lit "&")] (js "&amp;"))
  /\ htmlSafe s = flat_map Spec.escape s
  /\ htmlSafe (js "a&<b>") = js "a&amp;&lt;b&gt;".
Proof.
  split; [apply escapeAmp_flat_map|].
  split; [apply xssSafe_flat_map|].
  split; [reflexivity|].
  split; [|reflexivity].
  change (htmlSafe s) with (xssSafe (replace s [plain (lit "&")] (js "&amp;"))).
  rewrite xssSafe_flat_map, escapeAmp_flat_map, flat_map_compose.
  apply flat_map_ext. intros c. unfold Spec.escape, Spec.escapeAmp.
  destruct (N.eqb_spec c (cu "&")) as [->|_]; [reflexivity|].
  cbn [flat_map]. apply app_nil_r.
Qed.

(** C2 at a line break: the code unit LF is not matched by the pattern
    of [mask] and stays in the result, where every character was to become
    the mask character. *)
Theorem mask_keeps_line_terminator :
  mask (js "a" ++ [10%N] ++ js "b") None = js "*" ++ [10%N] ++ js "*"
  /\ mask (js "a" ++ [10%N] ++ js "b") None <> js "***".
Proof. split; [reflexivity|discriminate]. Qed.

(** C4: with [length suffix <= maxLen], a string longer than [maxLen] is
    cut to its first [maxLen - length suffix] characters followed by the
    suffix, and a string that is not longer is returned as it is; the suffix
    is "..." when omitted, so [truncate "hello world" 5] is "he...". *)
Theorem truncate_spec (s : jsstring) (maxLen : Z) (suffix : option jsstring) :
  (Z.of_nat (length (default (js "...") suffix)) <= maxLen)%Z ->
  ((Z.of_nat (length s) > maxLen)%Z ->
     truncate s maxLen suffix
     = firstn (Z.to_nat (maxLen - Z.of_nat (length (default (js "...") suffix)))) s
         ++ default (js "...") suffix)
  /\ ((Z.of_nat (length s) <= maxLen)%Z -> truncate s maxLen suffix = s)
  /\ truncate (js "hello world") 5 None = js "he...".
Proof.
  intros Hs. unfold truncate. cbv zeta. split; [|split].
  - intros Hl. replace (Z.of_nat (length s) >? maxLen)%Z with true
      by (symmetry; apply Z.gtb_lt; lia).
    rewrite slice_firstn by lia. reflexivity.
  - intros Hl. replace (Z.of_nat (length s) >? maxLen)%Z with false; [reflexivity|].
    symmetry. rewrite Z.gtb_ltb. apply Z.ltb_ge. lia.
  - reflexivity.
Qed.

Lemma truncate_spec_witness :
  truncate (js "hello world") 7 (Some (js "..")) = js "hello.."
  /\ truncate (js "hello") 7 (Some (js "..")) = js "hello".
Proof.
  destruct (truncate_spec (js "hello world") 7 (Some (js ".."))) as (H1 & _ & _);
    [vm_compute; discriminate|].
  destruct (truncate_spec (js "hello") 7 (Some (js ".."))) as (_ & H2 & _);
    [vm_compute; discriminate|].
  split.
  - rewrite H1; [reflexivity|vm_compute; reflexivity].
  - apply H2. vm_compute; discriminate.
Defined.

(** C9: with the empty substring, [totalOccurrences] returns the length
    of the string minus one; on the empty string this is the negative count
    -1. *)
Theorem totalOccurrences_empty_substring (s : jsstring) :
  totalOccurrences s [] = (Z.of_nat (length s) - 1)%Z
  /\ totalOccurrences [] [] = (-1)%Z.
Proof.
  split; [|reflexivity].
  unfold totalOccurrences, split. rewrite length_map. reflexivity.
Qed.

End StringClaims.

Section KebabCase.

(** The host's lower-casing, with the two facts about it that matter
    here: it leaves no capital A-Z behind, and lower-casing twice changes
    nothing more. *)
Variable toLowerCase : jsstring -> jsstring.
Hypothesis toLowerCase_no_capital :
  forall s c, In c (toLowerCase s) -> range "A" "Z" c = false.
Hypothesis toLowerCase_idempotent :
  forall s, toLowerCase (toLowerCase s) = toLowerCase s.

Lemma exec_needs_capital (rest : jsstring) :
  (forall c, In c rest -> range "A" "Z" c = false) ->
  exec [group (range "a" "z"); group (range "A" "Z")] rest = None.
Proof.
  intros H. destruct rest as [|c [|d rest]]; cbn [exec]; [reflexivity| |].
  - destruct (range "a" "z" c); reflexivity.
  - rewrite (H d) by (right; left; reflexivity).
    destruct (range "a" "z" c); reflexivity.
Qed.

Lemma replace_from_no_capital (template str rest : jsstring) (position : nat) :
  (forall c, In c rest -> range "A" "Z" c = false) ->
  replace_from [group (range "a" "z"); group (range "A" "Z")] template str
    position 0 rest = rest.
Proof.
  revert position. induction rest as [|c rest IH]; intros position H; [reflexivity|].
  cbn [replace_from]. rewrite exec_needs_capital by assumption.
  rewrite IH; [reflexivity|]. intros d Hd. apply H. now right.
Qed.

(** C7: whatever the string, [kebabCase] returns a string that
    [isKebabCase] accepts; said otherwise, [kebabCase] is idempotent. *)
Theorem isKebabCase_kebabCase (s : jsstring) :
  isKebabCase toLowerCase (kebabCase toLowerCase s) = true
  /\ kebabCase toLowerCase (kebabCase toLowerCase s) = kebabCase toLowerCase s.
Proof.
  assert (E : kebabCase toLowerCase (kebabCase toLowerCase s)
              = kebabCase toLowerCase s).
  { unfold kebabCase at 1. unfold replace.
    rewrite replace_from_no_capital.
    - unfold kebabCase. apply toLowerCase_idempotent.
    - unfold kebabCase. apply toLowerCase_no_capital. }
  split; [|exact E].
  unfold isKebabCase. apply strict_eq_true. symmetry. exact E.
Qed.

End KebabCase.

Section AsciiLower.

Lemma asciiLower_no_capital (s : jsstring) (c : code_unit) :
  In c (Spec.asciiLower s) -> range "A" "Z" c = false.
Proof.
  unfold Spec.asciiLower. rewrite in_map_iff. intros (x & <- & _).
  unfold range, between. change (cu "A") with 65%N. change (cu "Z") with 90%N.
  destruct (65 <=? x)%N eqn:Ha, (x <=? 90)%N eqn:Hz; cbn [andb];
    rewrite ?Ha, ?Hz; try reflexivity.
  apply N.leb_le in Ha, Hz. apply andb_false_iff. right. apply N.leb_gt. lia.
Qed.

Lemma asciiLower_idempotent (s : jsstring) :
  Spec.asciiLower (Spec.asciiLower s) = Spec.asciiLower s.
Proof.
  unfold Spec.asciiLower. rewrite map_map. apply map_ext. intros c.
  destruct (range "A" "Z" c) eqn:E; rewrite ?E; [|reflexivity].
  replace (range "A" "Z" (c + 32)%N) with false; [reflexivity|].
  symmetry. apply (asciiLower_no_capital [c]). simpl. rewrite E. now left.
Qed.

Lemma isKebabCase_kebabCase_witness :
  isKebabCase Spec.asciiLower (kebabCase Spec.asciiLower (js "helloWorld")) = true
  /\ kebabCase Spec.asciiLower (js "helloWorld") = js "hello-world".
Proof.
  split; [|reflexivity].
  apply (isKebabCase_kebabCase Spec.asciiLower
           asciiLower_no_capital asciiLower_idempotent (js "helloWorld")).
Defined.

End AsciiLower.

(** ** The numeric coercion and its grammar *)

Section NumericGrammar.

Import Spec.

Lemma digit_notWhite c : isDecimalDigit c = true -> notWhite c = true.
Proof. intros H. units. Qed.

Lemma hex_notWhite c : isHexDigit c = true -> notWhite c = true.
Proof. intros H. units. Qed.

Lemma all_impl (p q : CharClass) (s : jsstring) :
  (forall c, p c = true -> q c = true) -> all p s -> all q s.
Proof. intros H. apply Forall_impl. exact H. Qed.

Lemma all_rev (p : CharClass) (s : jsstring) : all p s -> all p (rev s).
Proof. unfold all. apply Forall_rev. Qed.

(** *** White space *)

Lemma trimStart_white w l : all isStrWhiteSpaceChar w -> trimStart (w ++ l) = trimStart l.
Proof.
  induction 1 as [|c w Hc _ IH]; [reflexivity|].
  cbn [app trimStart]. rewrite Hc. exact IH.
Qed.

Lemma trimStart_notWhite l w :
  all notWhite l -> all isStrWhiteSpaceChar w ->
  trimStart (l ++ w) = match l with [] => [] | _ :: _ => l ++ w end.
Proof.
  intros Hl Hw. destruct Hl as [|c l Hc _].
  - cbn [app]. rewrite <- (app_nil_r w). now rewrite trimStart_white.
  - cbn [app trimStart]. apply negb_true_iff in Hc. now rewrite Hc.
Qed.

Lemma trim_literal w1 l w2 :
  all isStrWhiteSpaceChar w1 -> all notWhite l -> all isStrWhiteSpaceChar w2 ->
  trim (w1 ++ l ++ w2) = l.
Proof.
  intros H1 Hl H2. unfold trim.
  rewrite trimStart_white, trimStart_notWhite by assumption.
  destruct l as [|c l]; [reflexivity|]. cbv iota.
  rewrite rev_app_distr, trimStart_white by (apply all_rev; assumption).
  rewrite <- (app_nil_r (rev (c :: l))).
  rewrite (trimStart_notWhite (rev (c :: l)) [] (all_rev _ _ Hl) (Forall_nil _)).
  destruct (rev (c :: l)) eqn:E.
  - apply (f_equal (@length _)) in E. rewrite length_rev in E. discriminate.
  - rewrite app_nil_r, <- E. apply rev_involutive.
Qed.

Lemma trimStart_split s :
  exists w, all isStrWhiteSpaceChar w /\ s = w ++ trimStart s.
Proof.
  induction s as [|c s (w & Hw & E)].
  - exists []. split; [constructor|reflexivity].
  - cbn [trimStart]. destruct (isStrWhiteSpaceChar c) eqn:Hc.
    + exists (c :: w). split; [now constructor|]. cbn [app]. now f_equal.
    + exists []. split; [constructor|reflexivity].
Qed.

Lemma trim_split s :
  exists w1 w2,
    all isStrWhiteSpaceChar w1 /\ all isStrWhiteSpaceChar w2
    /\ s = w1 ++ trim s ++ w2.
Proof.
  destruct (trimStart_split s) as (w1 & H1 & E1).
  destruct (trimStart_split (rev (trimStart s))) as (w2 & H2 & E2).
  exists w1, (rev w2). split; [assumption|]. split; [now apply all_rev|].
  unfold trim. rewrite <- rev_app_distr, <- E2, rev_involutive. exact E1.
Qed.

(** *** Runs of a class *)

Lemma span_split cls s p r : span cls s = (p, r) -> s = p ++ r /\ all cls p.
Proof.
  revert p r. induction s as [|c s IH]; intros p r; cbn [span].
  - intros [= <- <-]. split; [reflexivity|constructor].
  - destruct (cls c) eqn:Hc.
    + destruct (span cls s) as [p' r']. intros [= <- <-].
      destruct (IH _ _ eq_refl) as [-> Hp]. split; [reflexivity|now constructor].
    + intros [= <- <-]. split; [reflexivity|constructor].
Qed.

Lemma span_app cls p r : all cls p -> headNot cls r -> span cls (p ++ r) = (p, r).
Proof.
  intros Hp Hr. induction Hp as [|c p Hc _ IH].
  - destruct r as [|c r]; [reflexivity|]. cbn in Hr |- *. now rewrite Hr.
  - cbn [app span]. now rewrite Hc, IH.
Qed.

Lemma span_all cls p : all cls p -> span cls p = (p, []).
Proof.
  intros Hp. pose proof (span_app cls p [] Hp I) as H. now rewrite app_nil_r in H.
Qed.

(** *** Signs and exponents *)

Lemma signOf_split s negative u :
  signOf s = (negative, u) -> exists sign, Sign sign /\ s = sign ++ u.
Proof.
  unfold signOf. destruct s as [|c s].
  - intros [= <- <-]. exists []. split; [constructor|reflexivity].
  - destruct (N.eqb_spec c (cu "+")) as [->|_]; [|destruct (N.eqb_spec c (cu "-")) as [->|_]];
      intros [= <- <-].
    + exists [cu "+"]. split; [constructor|reflexivity].
    + exists [cu "-"]. split; [constructor|reflexivity].
    + exists []. split; [constructor|reflexivity].
Qed.

Lemma signOf_sign sign u :
  Sign sign -> headNot isSign u -> exists negative, signOf (sign ++ u) = (negative, u).
Proof.
  intros [ | | ] Hu; cbn [app]; [|now exists false|now exists true].
  exists false. destruct u as [|c u]; [reflexivity|].
  unfold headNot, isSign in Hu. apply orb_false_iff in Hu. destruct Hu as [H1 H2].
  unfold signOf. now rewrite H1, H2.
Qed.

Lemma digits_headNot_sign ds : DecimalDigits ds -> headNot isSign ds.
Proof.
  intros [Hne Hd]. destruct Hd as [|c ds Hc _]; [exact I|].
  unfold headNot, isSign. units.
Qed.

Lemma parseExponent_sound s e : parseExponent s = Some e -> optional ExponentPart s.
Proof.
  unfold parseExponent. destruct s as [|c s1]; [now left|].
  destruct ((c =? cu "e") || (c =? cu "E"))%N eqn:Hc; [|discriminate].
  destruct (signOf s1) as [negative s2] eqn:Hs.
  destruct (span isDecimalDigit s2) as [[|d ds] [|r rs]] eqn:Hd; try discriminate.
  intros _. right.
  apply signOf_split in Hs. destruct Hs as (sign & Hsign & ->).
  apply span_split in Hd. destruct Hd as [-> Hd]. rewrite app_nil_r.
  constructor; [|assumption|split; [discriminate|assumption]].
  apply orb_true_iff in Hc. destruct Hc as [Hc|Hc]; apply N.eqb_eq in Hc; auto.
Qed.

Lemma parseExponent_complete s :
  optional ExponentPart s -> exists e, parseExponent s = Some e.
Proof.
  intros [->|H]; [now exists 0%Z|].
  destruct H as [c sign ds Hc Hsign Hds]. unfold parseExponent.
  replace ((c =? cu "e") || (c =? cu "E"))%N with true
    by (destruct Hc as [-> | ->]; reflexivity).
  destruct (signOf_sign sign ds Hsign (digits_headNot_sign ds Hds)) as [negative ->].
  destruct Hds as [Hne Hd]. rewrite span_all by assumption.
  destruct ds; [contradiction|]. eauto.
Qed.

Lemma exponent_headNot_digit ex : optional ExponentPart ex -> headNot isDecimalDigit ex.
Proof.
  intros [->|[c sign ds [-> | ->] _ _]]; [exact I| |]; reflexivity.
Qed.

Lemma exponent_headNot_point ex : optional ExponentPart ex -> headNot (lit ".") ex.
Proof.
  intros [->|[c sign ds [-> | ->] _ _]]; [exact I| |]; reflexivity.
Qed.

(** *** Decimal literals *)

Lemma parseUnsignedDecimal_sound u v :
  parseUnsignedDecimal u = Some v -> StrUnsignedDecimalLiteral u.
Proof.
  unfold parseUnsignedDecimal.
  destruct (span isDecimalDigit u) as [ip s1] eqn:Hip.
  apply span_split in Hip. destruct Hip as [-> Hip].
  assert (Hcase : forall fp s2,
    all isDecimalDigit fp ->
    match ip ++ fp with
    | [] => None
    | (_ :: _) as ds =>
      match parseExponent s2 with
      | Some e => Some (digitsValue 10 0 ds, (e - Z.of_nat (length fp))%Z)
      | None => None
      end
    end = Some v ->
    (ip <> [] \/ fp <> []) /\ optional ExponentPart s2).
  { intros fp s2 Hfp H. destruct (ip ++ fp) eqn:E; [discriminate|].
    destruct (parseExponent s2) eqn:He; [|discriminate].
    split; [|eapply parseExponent_sound; eassumption].
    destruct ip; [right|left; discriminate]. cbn in E. now rewrite E. }
  destruct s1 as [|c s1'].
  - intros H. apply (Hcase [] []) in H; [|constructor].
    destruct H as [[Hne|Hne] Hex]; [|contradiction].
    now apply literal_integer.
  - destruct (N.eqb_spec c (cu ".")) as [->|Hc].
    + destruct (span isDecimalDigit s1') as [fp s2] eqn:Hfp.
      apply span_split in Hfp. destruct Hfp as [-> Hfp].
      intros H. apply Hcase in H; [|assumption]. destruct H as [Hne Hex].
      destruct ip as [|i ip].
      * destruct Hne as [Hne|Hne]; [contradiction|].
        now apply literal_fraction.
      * apply literal_point; [split; [discriminate|assumption]| |assumption].
        destruct fp; [now left|right; split; [discriminate|assumption]].
    + intros H. apply (Hcase []) in H; [|constructor].
      destruct H as [[Hne|Hne] Hex]; [|contradiction].
      now apply literal_integer.
Qed.

Lemma parseUnsignedDecimal_complete u :
  StrUnsignedDecimalLiteral u -> u <> js "Infinity" ->
  exists v, parseUnsignedDecimal u = Some v.
Proof.
  intros H Hinf. unfold parseUnsignedDecimal.
  destruct H as [|ip fp ex [Hne Hip] Hfp Hex|fp ex [Hne Hfp] Hex|ip ex [Hne Hip] Hex];
    [contradiction| | |].
  - rewrite span_app by (assumption || reflexivity).
    rewrite N.eqb_refl.
    assert (Hfp' : all isDecimalDigit fp) by (destruct Hfp as [->|[_ ?]]; [constructor|assumption]).
    rewrite span_app by (try assumption; now apply exponent_headNot_digit).
    destruct (parseExponent_complete ex Hex) as [e ->].
    destruct ip; [contradiction|]. cbn [app]. eauto.
  - cbn [span]. replace (isDecimalDigit (cu ".")) with false by reflexivity.
    rewrite N.eqb_refl.
    rewrite span_app by (try assumption; now apply exponent_headNot_digit).
    destruct (parseExponent_complete ex Hex) as [e ->].
    destruct fp; [contradiction|]. cbn [app]. eauto.
  - rewrite span_app by (try assumption; now apply exponent_headNot_digit).
    assert (Hs : match ex with
                 | c :: s1' => if (c =? cu ".")%N then span isDecimalDigit s1' else ([], ex)
                 | [] => ([], ex)
                 end = ([], ex)).
    { pose proof (exponent_headNot_point ex Hex) as Hp.
      destruct ex as [|c ex']; [reflexivity|].
      unfold headNot, lit in Hp. rewrite N.eqb_sym in Hp. now rewrite Hp. }
    rewrite Hs.
    destruct (parseExponent_complete ex Hex) as [e ->].
    rewrite app_nil_r. destruct ip; [contradiction|]. eauto.
Qed.

(** *** Literals in another radix *)

Lemma forallb_all cls s : forallb cls s = true <-> all cls s.
Proof.
  unfold all. rewrite forallb_forall, Forall_forall. reflexivity.
Qed.

Lemma parseNonDecimal_sound l m :
  parseNonDecimal l = Some m -> NonDecimalIntegerLiteral l.
Proof.
  destruct l as [|z [|x [|d ds]]]; try discriminate. unfold parseNonDecimal.
  destruct (N.eqb_spec z (cu "0")) as [->|_]; [|discriminate].
  destruct ((x =? cu "x") || (x =? cu "X"))%N eqn:Hx;
    [|destruct ((x =? cu "o") || (x =? cu "O"))%N eqn:Ho;
      [|destruct ((x =? cu "b") || (x =? cu "B"))%N eqn:Hb; [|discriminate]]];
    match goal with
    | |- (if ?t then _ else _) = _ -> _ =>
      destruct t eqn:Hd; [intros _|discriminate]
    end;
    apply forallb_all in Hd;
    [apply hex_literal|apply octal_literal|apply binary_literal];
    try discriminate; try assumption;
    match goal with
    | H : (_ || _)%bool = true |- _ =>
      apply orb_true_iff in H; destruct H as [H|H]; apply N.eqb_eq in H; auto
    end.
Qed.

Lemma parseNonDecimal_complete l :
  NonDecimalIntegerLiteral l -> exists m, parseNonDecimal l = Some m.
Proof.
  intros [x ds Hx Hne Hd|x ds Hx Hne Hd|x ds Hx Hne Hd];
    apply forallb_all in Hd; (destruct ds as [|d ds]; [contradiction|]);
    unfold parseNonDecimal; rewrite N.eqb_refl;
    destruct Hx as [-> | ->]; closed_tests; rewrite Hd; eauto.
Qed.

Lemma isNaN_NumberValue negative m e : isNaN (NumberValue negative m e) = false.
Proof. unfold NumberValue. destruct (overflows m e); reflexivity. Qed.

(** *** Literals hold no white space *)

Lemma digits_notWhite ds : all isDecimalDigit ds -> all notWhite ds.
Proof. apply all_impl. exact digit_notWhite. Qed.

Lemma sign_notWhite sign : Sign sign -> all notWhite sign.
Proof. intros [ | | ]; repeat constructor. Qed.

Lemma exponent_notWhite ex : optional ExponentPart ex -> all notWhite ex.
Proof.
  intros [->|[c sign ds Hc Hsign [_ Hds]]]; [constructor|].
  constructor; [destruct Hc as [-> | ->]; reflexivity|].
  apply Forall_app. split; [now apply sign_notWhite|now apply digits_notWhite].
Qed.

Lemma optional_digits ds : optional DecimalDigits ds -> all isDecimalDigit ds.
Proof. intros [->|[_ H]]; [constructor|assumption]. Qed.

Lemma unsigned_notWhite u :
  StrUnsignedDecimalLiteral u -> all notWhite u /\ u <> [] /\ headNot isSign u.
Proof.
  intros [|ip fp ex [Hne Hip] Hfp Hex|fp ex [Hne Hfp] Hex|ip ex [Hne Hip] Hex].
  - split; [repeat constructor|split; [discriminate|reflexivity]].
  - split; [|split].
    + apply Forall_app. split; [now apply digits_notWhite|].
      constructor; [reflexivity|]. apply Forall_app.
      split; [apply digits_notWhite, optional_digits, Hfp|apply exponent_notWhite, Hex].
    + destruct ip; [contradiction|discriminate].
    + destruct ip; [contradiction|]. apply (digits_headNot_sign (c :: ip)).
      split; assumption.
  - split; [|split; [discriminate|reflexivity]].
    constructor; [reflexivity|]. apply Forall_app.
    split; [now apply digits_notWhite|now apply exponent_notWhite].
  - split; [|split].
    + apply Forall_app. split; [now apply digits_notWhite|now apply exponent_notWhite].
    + destruct ip; [contradiction|discriminate].
    + destruct ip; [contradiction|]. apply (digits_headNot_sign (c :: ip)).
      split; assumption.
Qed.

Lemma literal_notWhite l : StrNumericLiteral l -> all notWhite l /\ l <> [].
Proof.
  intros [[sign u Hsign Hu]|H].
  - destruct (unsigned_notWhite u Hu) as (Hw & Hne & _). split.
    + apply Forall_app. split; [now apply sign_notWhite|assumption].
    + destruct sign; [assumption|discriminate].
  - split; [|destruct H; discriminate].
    destruct H as [x ds Hx _ Hd|x ds Hx _ Hd|x ds Hx _ Hd];
      (constructor; [reflexivity|]);
      (constructor; [destruct Hx as [-> | ->]; reflexivity|]);
      revert Hd; apply all_impl; intros c Hc; apply hex_notWhite; units.
Qed.

(** *** The coercion accepts exactly the grammar *)

Lemma StringToNumber_sound s :
  isNaN (StringToNumber s) = false -> StringNumericLiteral s.
Proof.
  destruct (trim_split s) as (w1 & w2 & H1 & H2 & E).
  unfold StringToNumber. rewrite E at 2. destruct (trim s) as [|c l].
  - intros _. apply blank_string. apply Forall_app. now split.
  - intros H. apply numeric_string; try assumption.
    destruct (parseNonDecimal (c :: l)) eqn:Hn;
      [right; eapply parseNonDecimal_sound; eassumption|left].
    destruct (signOf (c :: l)) as [negative u] eqn:Hs.
    apply signOf_split in Hs. destruct Hs as (sign & Hsign & ->).
    constructor; [assumption|].
    destruct (strict_eq u (js "Infinity")) eqn:Hi.
    + apply strict_eq_true in Hi. subst u. constructor.
    + destruct (parseUnsignedDecimal u) as [[m e]|] eqn:Hu; [|discriminate].
      eapply parseUnsignedDecimal_sound; eassumption.
Qed.

Lemma StringToNumber_complete s :
  StringNumericLiteral s -> isNaN (StringToNumber s) = false.
Proof.
  intros [w Hw|w1 l w2 H1 Hl H2]; unfold StringToNumber.
  - pose proof (trim_literal w [] [] Hw (Forall_nil _) (Forall_nil _)) as E.
    cbn [app] in E. rewrite app_nil_r in E. rewrite E. reflexivity.
  - destruct (literal_notWhite l Hl) as [Hw Hne].
    rewrite trim_literal by assumption.
    destruct l as [|c l]; [contradiction|].
    destruct (parseNonDecimal (c :: l)) eqn:Hn; [apply isNaN_NumberValue|].
    destruct Hl as [[sign u Hsign Hu]|Hl].
    + destruct (unsigned_notWhite u Hu) as (_ & _ & Hh).
      destruct (signOf_sign sign u Hsign Hh) as [negative Hs]. rewrite Hs.
      destruct (strict_eq u (js "Infinity")) eqn:Hi; [reflexivity|].
      destruct (parseUnsignedDecimal_complete u Hu) as [[m e] ->].
      * intros ->. discriminate.
      * apply isNaN_NumberValue.
    + apply parseNonDecimal_complete in Hl. destruct Hl as [m Hm]. congruence.
Qed.

End NumericGrammar.

Section Numeric.

(** C1 as worded fails on "Infinity": the string is numeric, and what it
    parses to is not a finite number. *)
Lemma isNumeric_Infinity_not_finite :
  ~ (isNumeric (js "Infinity") = true
     <-> isFinite (StringToNumber (js "Infinity")) = true).
Proof.
  intros [H _]. discriminate (H eq_refl).
Qed.

(** C1, amended: [isNumeric s] holds exactly when the numeric coercion
    of [s] is a number, finite or infinite, and fails exactly when it is
    not-a-number; "Infinity" is numeric. *)
Theorem isNumeric_iff_number (s : jsstring) :
  (isNumeric s = true
   <-> isFinite (StringToNumber s) = true
       \/ exists negative, StringToNumber s = Infinity negative)
  /\ (isNumeric s = true <-> Spec.StringNumericLiteral s)
  /\ (isNumeric s = false <-> StringToNumber s = NaN)
  /\ isNumeric (js "Infinity") = true.
Proof.
  unfold isNumeric. split; [|split; [|split; [|reflexivity]]].
  - destruct (StringToNumber s) as [|b|b m e]; cbn; split;
      try discriminate; auto.
    + intros [H|[b H]]; discriminate.
    + intros _. right. now exists b.
  - rewrite negb_true_iff. split.
    + apply StringToNumber_sound.
    + apply StringToNumber_complete.
  - destruct (StringToNumber s); cbn; split; try discriminate; auto.
Qed.

End Numeric.

(** ** Further properties of number.ts *)

Section NumberExtras.

Local Open Scope Z_scope.

(** X1: [isEven] and [isOdd] tell the parity of every integer, the
    negative ones included (the remainder of -3 by 2 is -1, which [isOdd]
    does not test for). *)
Theorem isEven_isOdd_parity (n : Z) :
  (isEven n = true <-> Z.Even n) /\ (isOdd n = true <-> Z.Odd n).
Proof.
  assert (E : isEven n = true <-> Z.Even n).
  { unfold isEven. rewrite Z.eqb_eq, Z.rem_divide by lia.
    split; intros [k Hk]; exists k; lia. }
  split; [exact E|].
  unfold isOdd. rewrite negb_true_iff, <- not_true_iff_false, E.
  split.
  - intros H. destruct (Z.Even_or_Odd n); [contradiction|assumption].
  - intros [k Hk] [j Hj]. lia.
Qed.

Lemma fold_max_spec (rest : list Z) (x : Z) :
  (In (fold_left Z.max rest x) (x :: rest))
  /\ Forall (fun y => y <= fold_left Z.max rest x) (x :: rest).
Proof.
  revert x. induction rest as [|y rest IH]; intros x; cbn [fold_left].
  - split; [now left|]. constructor; [lia|constructor].
  - destruct (IH (Z.max x y)) as [Hin Hall]. split.
    + destruct Hin as [Hin|Hin]; [|right; now right].
      rewrite <- Hin.
      destruct (Z.max_spec x y) as [[_ ->]|[_ ->]]; [right; now left|now left].
    + inversion Hall as [|? ? Hm Hrest]; subst.
      constructor; [lia|]. constructor; [lia|assumption].
Qed.

Lemma fold_min_spec (rest : list Z) (x : Z) :
  (In (fold_left Z.min rest x) (x :: rest))
  /\ Forall (fun y => fold_left Z.min rest x <= y) (x :: rest).
Proof.
  revert x. induction rest as [|y rest IH]; intros x; cbn [fold_left].
  - split; [now left|]. constructor; [lia|constructor].
  - destruct (IH (Z.min x y)) as [Hin Hall]. split.
    + destruct Hin as [Hin|Hin]; [|right; now right].
      rewrite <- Hin.
      destruct (Z.min_spec x y) as [[_ ->]|[_ ->]]; [now left|right; now left].
    + inversion Hall as [|? ? Hm Hrest]; subst.
      constructor; [lia|]. constructor; [lia|assumption].
Qed.

(** X2: [max] and [min] answer NaN exactly for no argument at all;
    otherwise the answer is one of the arguments, and no argument is above
    the maximum or below the minimum. *)
Theorem max_min_extremum (numbers : list Z) :
  (max numbers = None <-> numbers = [])
  /\ (min numbers = None <-> numbers = [])
  /\ (forall m, max numbers = Some m ->
        In m numbers /\ Forall (fun y => y <= m) numbers)
  /\ (forall m, min numbers = Some m ->
        In m numbers /\ Forall (fun y => m <= y) numbers).
Proof.
  destruct numbers as [|x rest]; cbn [max min].
  - repeat split; intros; try discriminate; reflexivity.
  - repeat split; try discriminate.
    all: match goal with H : Some _ = Some _ |- _ => injection H as <- end.
    all: try apply fold_max_spec; apply fold_min_spec.
Qed.

Lemma clamp_value (n minN maxN : Z) :
  clamp n minN maxN = Some (Z.min (Z.max n minN) maxN).
Proof. reflexivity. Qed.

(** X3: with [minN <= maxN], [clamp] answers a number of the interval,
    the nearest to [n]: [n] itself when it is inside, the bound it is beyond
    otherwise. *)
Theorem clamp_in_range (n minN maxN : Z) :
  minN <= maxN ->
  exists v, clamp n minN maxN = Some v
    /\ minN <= v <= maxN
    /\ (minN <= n <= maxN -> v = n)
    /\ (n < minN -> v = minN)
    /\ (maxN < n -> v = maxN).
Proof.
  intros H. exists (Z.min (Z.max n minN) maxN).
  split; [apply clamp_value|]. repeat split; lia.
Qed.

Lemma clamp_in_range_witness :
  exists v, clamp 15 1 10 = Some v
    /\ 1 <= v <= 10
    /\ (1 <= 15 <= 10 -> v = 15)
    /\ (15 < 1 -> v = 1)
    /\ (10 < 15 -> v = 10).
Proof. apply (clamp_in_range 15 1 10). lia. Defined.

(** X4: with the bounds the wrong way round, [maxN < minN], [clamp]
    answers [maxN] whatever [n] is. *)
Theorem clamp_crossed_bounds (n minN maxN : Z) :
  maxN < minN -> clamp n minN maxN = Some maxN.
Proof. intros H. rewrite clamp_value. f_equal. lia. Qed.

Lemma clamp_crossed_bounds_witness : clamp 5 10 1 = Some 1.
Proof. apply (clamp_crossed_bounds 5 10 1). lia. Defined.





End NumberExtras.

Section NumberExtras2.

Local Open Scope Z_scope.

Lemma Number_toString_negative (n : Z) :
  0 < n -> Number_toString (- n) = cu "-" :: Number_toString n.
Proof.
  intros H. destruct n as [|p|p]; try lia. reflexivity.
Qed.






(** *** isPrime *)

Lemma isPrime_loop_spec (n i : Z) :
  isPrime_loop n i = true <-> forall d, i <= d <= Z.sqrt n -> Z.rem n d <> 0.
Proof.
  funelim (isPrime_loop n i).
  - destruct (Z.eqb_spec (Z.rem n i) 0) as [E|E].
    + split; [discriminate|]. intros Hall. exfalso. apply (Hall i); [lia|assumption].
    + match goal with IH : _ <-> _ |- _ => rewrite IH end. split.
      * intros Hall d Hd. destruct (Z.eq_dec d i) as [->|]; [assumption|].
        apply Hall. lia.
      * intros Hall d Hd. apply Hall. lia.
  - split; [|reflexivity]. intros _ d Hd. lia.
Qed.

Lemma small_divisor (n d : Z) :
  2 <= n -> 1 < d < n -> (d | n) ->
  exists e, 2 <= e <= Z.sqrt n /\ (e | n).
Proof.
  intros Hn Hd [q Hq].
  pose proof (Z.sqrt_spec n ltac:(lia)) as Hs. cbv zeta in Hs.
  assert (1 < q) by nia.
  destruct (Z_le_dec d (Z.sqrt n)) as [H1|H1].
  - exists d. split; [lia|]. now exists q.
  - exists q. split; [|exists d; lia].
    split; [lia|].
    destruct (Z_le_dec q (Z.sqrt n)) as [H2|H2]; [assumption|]. exfalso.
    assert (Z.succ (Z.sqrt n) * Z.succ (Z.sqrt n) <= q * d)
      by (pose proof (Z.sqrt_nonneg n); apply Z.mul_le_mono_nonneg; lia).
    lia.
Qed.

(** X9: [isPrime n] is true exactly when [n] is a prime number: trial
    division by 2..floor(sqrt n) misses no composite, and everything below
    2 is refused. *)
Theorem isPrime_prime (n : Z) : isPrime n = true <-> Z.prime n.
Proof.
  unfold isPrime. destruct (Z.ltb_spec n 2) as [H|H].
  - split; [discriminate|]. intros Hp. apply Z.prime_ge_2 in Hp. lia.
  - rewrite isPrime_loop_spec. unfold Z.prime. split.
    + intros Hl. split; [lia|]. intros d Hd Hdiv.
      destruct (small_divisor n d H Hd Hdiv) as (e & He & Hediv).
      apply (Hl e He). apply Z.rem_divide; [lia|assumption].
    + intros [_ Hp] d Hd Hr. apply (Hp d).
      * pose proof (Z.sqrt_lt_lin n ltac:(lia)). lia.
      * apply Z.rem_divide; [lia|assumption].
Qed.

End NumberExtras2.

Section PrimeFactors.

Local Open Scope Z_scope.

Lemma product_app (l1 l2 : list Z) :
  Spec.product (l1 ++ l2) = Spec.product l1 * Spec.product l2.
Proof.
  unfold Spec.product. induction l1 as [|x l1 IH]; cbn [app fold_right]; [lia|].
  rewrite IH. lia.
Qed.

Lemma product_repeat (i : Z) (k : nat) :
  Spec.product (repeat i k) = i ^ Z.of_nat k.
Proof.
  induction k as [|k IH]; [reflexivity|].
  cbn [repeat]. unfold Spec.product in *. cbn [fold_right]. rewrite IH.
  rewrite Nat2Z.inj_succ, Z.pow_succ_r by lia. reflexivity.
Qed.

(** The inner loop takes out of [n] every factor [i]. *)
Lemma getPrimeFactors_while_spec (fuel : nat) (n i : Z) (factors : list Z) :
  2 <= i -> 1 <= n -> (Z.to_nat n <= fuel)%nat ->
  exists n' k,
    getPrimeFactors_while fuel n i factors = Some (n', factors ++ repeat i k)
    /\ n = n' * i ^ Z.of_nat k /\ 1 <= n' <= n /\ ~ (i | n')
    /\ (k = O \/ (i | n)).
Proof.
  intros Hi. revert n factors.
  induction fuel as [|fuel IH]; intros n factors Hn Hf; [lia|].
  cbn [getPrimeFactors_while]. destruct (Z.eqb_spec (Z.rem n i) 0) as [E|E].
  - apply Z.rem_divide in E; [|lia]. destruct E as [q Hq].
    assert (Hdiv : n / i = q) by (subst n; apply Z.div_mul; lia).
    assert (1 <= q < n) by nia.
    destruct (IH (n / i) (factors ++ [i])) as (n' & k & Hw & Hn' & Hb & Hnd & _);
      [lia|lia|].
    exists n', (S k). split; [|split; [|split; [|split]]].
    + rewrite Hw. rewrite <- app_assoc. reflexivity.
    + rewrite Nat2Z.inj_succ, Z.pow_succ_r by lia. rewrite Hdiv in Hn'. nia.
    + lia.
    + assumption.
    + right. now exists q.
  - exists n, O. rewrite app_nil_r. split; [reflexivity|].
    split; [cbn; lia|]. split; [lia|]. split; [|now left].
    intros Hd. apply E. apply Z.rem_divide; [lia|assumption].
Qed.

Lemma repeat_sorted (i : Z) (k : nat) (l : list Z) :
  StronglySorted Z.le l -> Forall (fun g => i <= g) l ->
  StronglySorted Z.le (repeat i k ++ l).
Proof.
  intros Hs Hl. induction k as [|k IH]; [assumption|].
  cbn [repeat app]. constructor; [assumption|].
  apply Forall_app. split; [|assumption].
  apply Forall_forall. intros x Hx. apply repeat_spec in Hx. lia.
Qed.

(** The outer loop, from a state where nothing below [i] divides [n]. *)
Lemma getPrimeFactors_for_spec (fuel : nat) (n i : Z) (factors : list Z) :
  2 <= i -> 1 <= n -> (forall d, 2 <= d < i -> ~ (d | n)) ->
  (Z.to_nat (n + 1 - i) < fuel)%nat ->
  exists found,
    getPrimeFactors_for fuel n i factors = Some (factors ++ found)
    /\ Forall Z.prime found /\ Forall (fun g => i <= g) found
    /\ StronglySorted Z.le found /\ Spec.product found = n.
Proof.
  revert n i factors.
  induction fuel as [|fuel IH]; intros n i factors Hi Hn Hnd Hf; [lia|].
  cbn [getPrimeFactors_for]. destruct (Z.leb_spec i n) as [Hle|Hgt].
  - destruct (getPrimeFactors_while_spec (S (Z.to_nat n)) n i factors)
      as (n' & k & Hw & Hn' & Hb & Hni & Hk); [lia|lia|lia|].
    rewrite Hw.
    destruct (IH n' (i + 1) (factors ++ repeat i k))
      as (found & Hfor & Hp & Hge & Hs & Hprod); [lia|lia| |lia|].
    { intros d Hd Hdiv. destruct (Z.eq_dec d i) as [->|Hne]; [contradiction|].
      apply (Hnd d); [lia|]. rewrite Hn'. now apply Z.divide_mul_l. }
    exists (repeat i k ++ found). split; [|split; [|split; [|split]]].
    + rewrite Hfor, app_assoc. reflexivity.
    + apply Forall_app. split; [|assumption].
      apply Forall_forall. intros x Hx.
      pose proof (repeat_spec _ _ _ Hx) as Ex. subst x.
      destruct Hk as [->|Hdiv]; [destruct Hx|].
      split; [lia|]. intros d Hd Hdi. apply (Hnd d); [lia|].
      eapply Z.divide_trans; eassumption.
    + apply Forall_app. split.
      * apply Forall_forall. intros x Hx. apply repeat_spec in Hx. lia.
      * revert Hge. apply Forall_impl. intros g Hg. lia.
    + apply repeat_sorted; [assumption|].
      revert Hge. apply Forall_impl. intros g Hg. lia.
    + rewrite product_app, product_repeat, Hprod. lia.
  - exists []. rewrite app_nil_r. split; [reflexivity|].
    repeat split; try constructor.
    destruct (Z.eq_dec n 1) as [->|Hne]; [reflexivity|]. exfalso.
    apply (Hnd n); [lia|]. apply Z.divide_refl.
Qed.

(** X10: [getPrimeFactors n] ends for every integer [n] and returns
    prime numbers only, in ascending order, a prime as many times as it
    divides [n]: for [n >= 1] their product is [n], and for [n <= 1] there
    is none. *)
Theorem getPrimeFactors_factorization (n : Z) :
  exists factors,
    getPrimeFactors n = Some factors
    /\ Forall Z.prime factors
    /\ StronglySorted Z.le factors
    /\ (1 <= n -> Spec.product factors = n)
    /\ (n <= 1 -> factors = []).
Proof.
  unfold getPrimeFactors. destruct (Z_le_dec 1 n) as [Hn|Hn].
  - destruct (getPrimeFactors_for_spec (S (Z.to_nat n)) n 2 [])
      as (found & Hfor & Hp & _ & Hs & Hprod); [lia|lia|intros d Hd; lia|lia|].
    exists found. cbn [app] in Hfor.
    split; [assumption|]. split; [assumption|]. split; [assumption|].
    split; [intros _; assumption|].
    intros H1. assert (Hprod1 : Spec.product found = 1) by lia. clear Hfor Hprod.
    destruct found as [|p found]; [reflexivity|]. exfalso.
    inversion Hp as [|? ? Hp1 Hp2]; subst. apply Z.prime_ge_2 in Hp1.
    assert (H0 : Forall (fun g => 1 <= g) found).
    { revert Hp2. apply Forall_impl. intros g Hg. apply Z.prime_ge_2 in Hg. lia. }
    assert (1 <= Spec.product found).
    { clear - H0. induction H0 as [|g l Hg _ IH]; unfold Spec.product in *;
        cbn [fold_right]; [lia|nia]. }
    unfold Spec.product in *. cbn [fold_right] in Hprod1. nia.
  - exists []. cbn [getPrimeFactors_for].
    destruct (Z.leb_spec 2 n); [lia|].
    repeat split; try constructor. intros; lia.
Qed.

End PrimeFactors.

Section ToWords.

Local Open Scope Z_scope.

(** X11: for a negative number [toWords] names the digits as for its
    opposite and puts one space in front: the minus sign has no word, and
    the gap it leaves is still joined to the rest. *)
Theorem toWords_negative (n : Z) :
  0 < n -> toWords (- n) = cu " " :: toWords n.
Proof.
  intros Hn. unfold toWords. rewrite Number_toString_negative by assumption.
  destruct (Number_toString_decimal n ltac:(lia)) as [Hd Hv].
  destruct (Number_toString n) as [|d ds] eqn:E.
  - exfalso. cbn in Hv. lia.
  - unfold split. cbn [map]. unfold join_values. cbn [map].
    replace (parseInt [cu "-"]) with (@None Z) by reflexivity.
    cbn [join app]. reflexivity.
Qed.

Lemma toWords_negative_witness : toWords (-12) = js " one two".
Proof. apply (toWords_negative 12). lia. Defined.

End ToWords.

(** ** Sorting *)

Section Sorting.

Variable A : Type.
Variable precedes : A -> A -> bool.
Hypothesis precedes_total : forall x y, precedes x y = true \/ precedes y x = true.
Hypothesis precedes_trans :
  forall x y z, precedes x y = true -> precedes y z = true -> precedes x z = true.
Hypothesis precedes_antisym :
  forall x y, precedes x y = true -> precedes y x = true -> x = y.

Let ordered (x y : A) : Prop := precedes x y = true.

Lemma insert_permutation (x : A) (a : list A) :
  Permutation (insert precedes x a) (x :: a).
Proof.
  induction a as [|y a IH]; cbn [insert]; [reflexivity|].
  destruct (precedes x y); [reflexivity|].
  rewrite IH. apply perm_swap.
Qed.

Lemma sort_permutation (a : list A) : Permutation (sort precedes a) a.
Proof.
  induction a as [|x a IH]; cbn [sort fold_right]; [reflexivity|].
  rewrite insert_permutation. now constructor.
Qed.

Lemma insert_ordered (x : A) (a : list A) :
  StronglySorted ordered a -> StronglySorted ordered (insert precedes x a).
Proof.
  induction 1 as [|y a Hs IH Hy]; cbn [insert]; [repeat constructor|].
  destruct (precedes x y) eqn:E.
  - constructor; [now constructor|]. constructor; [exact E|].
    revert Hy. apply Forall_impl. intros z Hz. eapply precedes_trans; eassumption.
  - constructor; [assumption|].
    assert (Hyx : ordered y x) by (destruct (precedes_total x y); congruence).
    rewrite insert_permutation. now constructor.
Qed.

Lemma sort_ordered (a : list A) : StronglySorted ordered (sort precedes a).
Proof.
  induction a as [|x a IH]; cbn [sort fold_right]; [constructor|].
  now apply insert_ordered.
Qed.

Lemma ordered_unique (a b : list A) :
  StronglySorted ordered a -> StronglySorted ordered b -> Permutation a b -> a = b.
Proof.
  intros Ha. revert b. induction Ha as [|x a Ha IH Hx]; intros b Hb Hp.
  - apply Permutation_nil in Hp. now subst.
  - destruct Hb as [|y b Hb Hy].
    + symmetry in Hp. apply Permutation_nil in Hp. discriminate.
    + assert (E : x = y).
      { assert (Hin1 : In x (y :: b)) by (eapply Permutation_in; [exact Hp|now left]).
        assert (Hin2 : In y (x :: a))
          by (eapply Permutation_in; [symmetry; exact Hp|now left]).
        destruct Hin1 as [->|Hin1]; [reflexivity|].
        destruct Hin2 as [->|Hin2]; [reflexivity|].
        rewrite Forall_forall in Hx, Hy.
        apply precedes_antisym; [apply Hx, Hin2|apply Hy, Hin1]. }
      subst y. f_equal. apply IH; [assumption|].
      eapply Permutation_cons_inv; eassumption.
Qed.

Lemma sort_of_permutation (a b : list A) :
  Permutation a b -> sort precedes a = sort precedes b.
Proof.
  intros Hp. apply ordered_unique; try apply sort_ordered.
  rewrite !sort_permutation. exact Hp.
Qed.

End Sorting.

Section NumericOrder.

Local Open Scope Z_scope.

Lemma difference_total (x y : Z) : (x - y <=? 0) = true \/ (y - x <=? 0) = true.
Proof. rewrite !Z.leb_le. lia. Qed.

Lemma difference_trans (x y z : Z) :
  (x - y <=? 0) = true -> (y - z <=? 0) = true -> (x - z <=? 0) = true.
Proof. rewrite !Z.leb_le. lia. Qed.

Lemma difference_antisym (x y : Z) :
  (x - y <=? 0) = true -> (y - x <=? 0) = true -> x = y.
Proof. rewrite !Z.leb_le. lia. Qed.

(** X12: [median] does not depend on the order of its arguments. *)
Theorem median_permutation (numbers numbers' : list Z) :
  Permutation numbers numbers' -> median numbers = median numbers'.
Proof.
  intros Hp. unfold median.
  rewrite (sort_of_permutation Z _ difference_total difference_trans
             difference_antisym numbers numbers' Hp).
  reflexivity.
Qed.

Lemma median_permutation_witness : median [4; 1; 3; 2] = median [1; 2; 3; 4].
Proof.
  apply (median_permutation [4; 1; 3; 2] [1; 2; 3; 4]).
  apply (perm_trans (l' := [1; 4; 3; 2])); [apply perm_swap|].
  apply perm_skip.
  apply (perm_trans (l' := [3; 4; 2])); [apply perm_swap|].
  apply (perm_trans (l' := [3; 2; 4])); [apply perm_skip, perm_swap|].
  apply perm_swap.
Defined.




End NumericOrder.

(** ** Further properties of string.ts *)

Section StringExtras.

Lemma startsWith_app (prefix t : jsstring) : startsWith (prefix ++ t) prefix = true.
Proof.
  induction prefix as [|c p IH]; [destruct t; reflexivity|].
  cbn [app startsWith]. now rewrite N.eqb_refl, IH.
Qed.

Lemma startsWith_split (str prefix : jsstring) :
  startsWith str prefix = true -> exists t, str = prefix ++ t.
Proof.
  revert str. induction prefix as [|c p IH]; intros str H.
  - now exists str.
  - destruct str as [|d str]; [discriminate|]. cbn [startsWith] in H.
    apply andb_true_iff in H. destruct H as [Hc Hp].
    apply N.eqb_eq in Hc. subst d. destruct (IH str Hp) as [t ->]. now exists t.
Qed.

Lemma slice_from_skipn (str : jsstring) (k : nat) :
  (k <= length str)%nat -> slice_from str (Z.of_nat k) = skipn k str.
Proof.
  intros Hk. unfold slice_from, slice. cbv zeta.
  replace (Z.of_nat k <? 0)%Z with false by (symmetry; apply Z.ltb_ge; lia).
  replace (Z.of_nat (length str) <? 0)%Z with false by (symmetry; apply Z.ltb_ge; lia).
  rewrite !Z.min_l by lia. rewrite Nat2Z.id.
  apply firstn_all2. rewrite length_skipn. lia.
Qed.

(** X14: [removePrefix] takes a prefix off exactly: [removePrefix] of
    [prefix + t] is [t]; a string that does not start with the prefix is
    returned as it is. *)
Theorem removePrefix_strips (str prefix : jsstring) :
  (forall t, removePrefix (prefix ++ t) prefix = t)
  /\ ((forall t, str <> prefix ++ t) -> removePrefix str prefix = str).
Proof.
  split.
  - intros t. unfold removePrefix. rewrite startsWith_app.
    rewrite slice_from_skipn by (rewrite length_app; lia).
    rewrite skipn_app, skipn_all, Nat.sub_diag. reflexivity.
  - intros H. unfold removePrefix. destruct (startsWith str prefix) eqn:E; [|reflexivity].
    apply startsWith_split in E. destruct E as [t ->]. now destruct (H t).
Qed.

Lemma endsWith_app (t suffix : jsstring) : endsWith (t ++ suffix) suffix = true.
Proof.
  unfold endsWith. rewrite length_app.
  replace (length suffix <=? length t + length suffix)%nat with true
    by (symmetry; apply Nat.leb_le; lia).
  replace (length t + length suffix - length suffix)%nat with (length t) by lia.
  rewrite skipn_app, skipn_all, Nat.sub_diag. now apply strict_eq_true.
Qed.

Lemma endsWith_split (str suffix : jsstring) :
  endsWith str suffix = true -> exists t, str = t ++ suffix.
Proof.
  unfold endsWith. destruct (length suffix <=? length str)%nat; [|discriminate].
  intros H. apply strict_eq_true in H.
  exists (firstn (length str - length suffix) str).
  rewrite <- (firstn_skipn (length str - length suffix) str) at 1.
  f_equal. exact H.
Qed.

Lemma slice_negative_end (str : jsstring) (k : Z) :
  (k < 0)%Z ->
  slice str 0 k = firstn (Z.to_nat (Z.of_nat (length str) + k)) str.
Proof.
  intros Hk. unfold slice. cbv zeta.
  replace (0 <? 0)%Z with false by reflexivity.
  replace (k <? 0)%Z with true by (symmetry; apply Z.ltb_lt; lia).
  rewrite (Z.min_l 0) by lia. cbn [Z.to_nat skipn]. rewrite Z.sub_0_r.
  destruct (Z.max_spec (Z.of_nat (length str) + k) 0) as [[H1 ->]|[H1 ->]].
  - replace (Z.to_nat (Z.of_nat (length str) + k)) with O by lia. reflexivity.
  - reflexivity.
Qed.

(** X15: [removeSuffix] takes a non-empty suffix off exactly, and leaves a
    string that does not end with the suffix as it is; with the empty suffix
    it returns the empty string, whatever the string. *)
Theorem removeSuffix_strips (str suffix : jsstring) :
  (forall t, suffix <> [] -> removeSuffix (t ++ suffix) suffix = t)
  /\ ((forall t, str <> t ++ suffix) -> removeSuffix str suffix = str)
  /\ removeSuffix str [] = [].
Proof.
  split; [|split].
  - intros t Hne. unfold removeSuffix. rewrite endsWith_app.
    rewrite slice_negative_end by (destruct suffix; [contradiction|cbn [length]; lia]).
    rewrite length_app.
    replace (Z.to_nat (Z.of_nat (length t + length suffix) + - Z.of_nat (length suffix)))
      with (length t) by lia.
    rewrite firstn_app, Nat.sub_diag, firstn_all. cbn [firstn]. apply app_nil_r.
  - intros H. unfold removeSuffix. destruct (endsWith str suffix) eqn:E; [|reflexivity].
    apply endsWith_split in E. destruct E as [t ->]. now destruct (H t).
  - unfold removeSuffix.
    pose proof (endsWith_app str []) as E. rewrite app_nil_r in E. rewrite E.
    unfold slice. cbv zeta. cbn [length Z.of_nat Z.opp].
    replace (0 <? 0)%Z with false by reflexivity.
    rewrite Z.min_l by lia. reflexivity.
Qed.

(** X16: when the suffix fits ([length suffix <= maxLength]), the result
    of [truncate] has [min(length str, maxLength)] code units, so never more
    than [maxLength]. *)
Theorem truncate_length (str : jsstring) (maxLength : Z) (suffix : option jsstring) :
  (Z.of_nat (length (default (js "...") suffix)) <= maxLength)%Z ->
  Z.of_nat (length (truncate str maxLength suffix))
  = Z.min (Z.of_nat (length str)) maxLength.
Proof.
  intros Hs. unfold truncate. cbv zeta.
  destruct (Z.gtb_spec (Z.of_nat (length str)) maxLength) as [H|H].
  - rewrite slice_firstn by lia. rewrite length_app, length_firstn. lia.
  - lia.
Qed.

Lemma truncate_length_witness :
  Z.of_nat (length (truncate (js "hello world") 5 None)) = Z.min 11 5.
Proof. apply (truncate_length (js "hello world") 5 None). vm_compute. discriminate. Defined.

(** X17: when the suffix does not fit ([maxLength < length suffix]) and
    the string is longer than [maxLength], the cut is counted from the end of
    the string: [length suffix - maxLength] code units are dropped there and
    the suffix is added, which gives more than [maxLength] code units. *)
Theorem truncate_short_limit (str : jsstring) (maxLength : Z) (suffix : option jsstring) :
  (maxLength < Z.of_nat (length (default (js "...") suffix)))%Z ->
  (maxLength < Z.of_nat (length str))%Z ->
  truncate str maxLength suffix
  = firstn
      (Z.to_nat (Z.of_nat (length str)
                 - (Z.of_nat (length (default (js "...") suffix)) - maxLength)))
      str
    ++ default (js "...") suffix
  /\ (maxLength < Z.of_nat (length (truncate str maxLength suffix)))%Z.
Proof.
  intros Hs Hl.
  assert (E : truncate str maxLength suffix
              = firstn
                  (Z.to_nat (Z.of_nat (length str)
                     - (Z.of_nat (length (default (js "...") suffix)) - maxLength)))
                  str
                ++ default (js "...") suffix).
  { unfold truncate. cbv zeta.
    replace (Z.of_nat (length str) >? maxLength)%Z with true
      by (symmetry; apply Z.gtb_lt; lia).
    rewrite slice_negative_end by lia. do 2 f_equal. lia. }
  split; [exact E|]. rewrite E, length_app. lia.
Qed.

Lemma truncate_short_limit_witness :
  truncate (js "hello world") 2 None = js "hello worl..."
  /\ (2 < Z.of_nat (length (truncate (js "hello world") 2 None)))%Z.
Proof.
  apply (truncate_short_limit (js "hello world") 2 None); vm_compute; reflexivity.
Defined.

Lemma join_units (s : jsstring) : join (map (fun c => [c]) s) [] = s.
Proof.
  induction s as [|c [|d s] IH]; [reflexivity|reflexivity|].
  cbn [map join app] in *. now rewrite IH.
Qed.

Lemma reverse_rev (s : jsstring) : reverse s = rev s.
Proof.
  unfold reverse, split. rewrite <- map_rev. apply join_units.
Qed.

(** X18: [reverse] puts the code units in the opposite order: it keeps
    the length, undoes itself, and turns a concatenation round; a string
    followed by its reverse is a palindrome, and so is the reverse of a
    palindrome. *)
Theorem reverse_involutive (s t : jsstring) :
  reverse s = rev s
  /\ reverse (reverse s) = s
  /\ reverse (s ++ t) = reverse t ++ reverse s
  /\ isPalindrome (s ++ reverse s) = true
  /\ isPalindrome (reverse s) = isPalindrome s.
Proof.
  unfold isPalindrome. rewrite !reverse_rev.
  split; [reflexivity|]. split; [apply rev_involutive|].
  split; [apply rev_app_distr|]. split.
  - apply strict_eq_true. now rewrite rev_app_distr, rev_involutive.
  - rewrite rev_involutive. unfold strict_eq.
    destruct (list_eq_dec N.eq_dec (rev s) s), (list_eq_dec N.eq_dec s (rev s));
      congruence.
Qed.

End StringExtras.

Section StringExtras2.

Lemma split_from_count (c : code_unit) (piece rest : jsstring) :
  length (split_from [c] 0 piece rest) = S (count_occ N.eq_dec rest c).
Proof.
  revert piece. induction rest as [|x rest IH]; intros piece; [reflexivity|].
  cbn [split_from startsWith count_occ length Nat.sub].
  assert (Hs : startsWith rest [] = true) by (destruct rest; reflexivity).
  rewrite Hs, andb_true_r.
  destruct (N.eqb_spec c x) as [->|Hne].
  - destruct (N.eq_dec x x) as [_|H]; [|contradiction]. cbn [length]. now rewrite IH.
  - destruct (N.eq_dec x c) as [H|_]; [congruence|]. apply IH.
Qed.

(** X19: for a substring of one code unit, [totalOccurrences] counts the
    code units of the string that are equal to it. *)
Theorem totalOccurrences_unit (str : jsstring) (c : code_unit) :
  totalOccurrences str [c] = Z.of_nat (count_occ N.eq_dec str c).
Proof.
  unfold totalOccurrences, split. rewrite split_from_count. lia.
Qed.

Lemma split_from_nonempty (separator piece rest : jsstring) (skip : nat) :
  (1 <= length (split_from separator skip piece rest))%nat.
Proof.
  revert skip piece. induction rest as [|x rest IH]; intros skip piece; [cbn; lia|].
  cbn [split_from]. destruct skip; [|apply IH].
  destruct (startsWith (x :: rest) separator); [cbn [length]; lia|apply IH].
Qed.

Lemma split_from_bound (separator piece rest : jsstring) (skip : nat) :
  separator <> [] ->
  ((length (split_from separator skip piece rest) - 1) * length separator
   <= length rest - skip)%nat.
Proof.
  intros Hne. revert skip piece.
  induction rest as [|x rest IH]; intros skip piece; [cbn; lia|].
  cbn [split_from]. destruct skip as [|k].
  - destruct (startsWith (x :: rest) separator) eqn:E.
    + apply startsWith_split in E. destruct E as [t E].
      apply (f_equal (@length _)) in E. rewrite length_app in E.
      specialize (IH (length separator - 1)%nat []).
      pose proof (split_from_nonempty separator [] rest (length separator - 1)) as H1.
      destruct separator as [|s0 sep]; [contradiction|].
      cbn [length] in *.
      destruct (length (split_from (s0 :: sep) (S (length sep) - 1) [] rest))
        as [|m]; [lia|].
      rewrite !Nat.sub_succ, !Nat.sub_0_r in *. cbn [Nat.mul]. lia.
    + specialize (IH O (piece ++ [x])). cbn [length]. lia.
  - specialize (IH k piece). cbn [length]. lia.
Qed.

(** X20: for a non-empty substring, [totalOccurrences] is never negative,
    and the occurrences it counts fit in the string side by side: the count
    times the length of the substring is at most the length of the string. *)
Theorem totalOccurrences_bound (str subStr : jsstring) :
  subStr <> [] ->
  (0 <= totalOccurrences str subStr)%Z
  /\ (totalOccurrences str subStr * Z.of_nat (length subStr)
      <= Z.of_nat (length str))%Z.
Proof.
  intros Hne. unfold totalOccurrences, split.
  destruct subStr as [|s0 sep] eqn:E; [contradiction|]. rewrite <- E in *.
  pose proof (split_from_nonempty subStr [] str 0) as H1.
  pose proof (split_from_bound subStr [] str 0 Hne) as H2.
  split; [lia|]. rewrite Nat.sub_0_r in H2. nia.
Qed.

Lemma totalOccurrences_bound_witness :
  (0 <= totalOccurrences (js "aaaaa") (js "aa"))%Z
  /\ (totalOccurrences (js "aaaaa") (js "aa") * 2 <= 5)%Z.
Proof. apply (totalOccurrences_bound (js "aaaaa") (js "aa")). discriminate. Defined.

Lemma replace_delete (cls : CharClass) (str : jsstring) :
  replace str [plain cls] [] = filter (fun c => negb (cls c)) str.
Proof.
  rewrite replace_class by reflexivity.
  induction str as [|c s IH]; [reflexivity|].
  cbn [flat_map filter]. rewrite IH. destruct (cls c); reflexivity.
Qed.

Lemma filter_idempotent {B : Type} (f : B -> bool) (l : list B) :
  filter f (filter f l) = filter f l.
Proof.
  induction l as [|x l IH]; [reflexivity|]. cbn [filter].
  destruct (f x) eqn:E; [cbn [filter]; rewrite E, IH|]; auto.
Qed.

Lemma replace_keep (cls : CharClass) (str : jsstring) :
  replace str [plain (fun c => negb (cls c))] [] = filter cls str.
Proof.
  rewrite replace_delete. apply filter_ext. intros c. apply negb_involutive.
Qed.

(** X21: [removeNonAlphaNumeric], [removeNonNumeric] and [removeNonAlpha]
    keep, in their order, exactly the code units of their class (a-z, A-Z,
    0-9; 0-9; a-z, A-Z) and delete the others; applying one twice changes
    nothing more. *)
Theorem removeNon_filter (str : jsstring) :
  removeNonAlphaNumeric str = filter isAlphaNumericUnit str
  /\ removeNonNumeric str = filter (range "0" "9") str
  /\ removeNonAlpha str = filter isAlphaUnit str
  /\ removeNonAlphaNumeric (removeNonAlphaNumeric str) = removeNonAlphaNumeric str
  /\ removeNonNumeric (removeNonNumeric str) = removeNonNumeric str
  /\ removeNonAlpha (removeNonAlpha str) = removeNonAlpha str.
Proof.
  unfold removeNonAlphaNumeric, removeNonNumeric, removeNonAlpha.
  rewrite !replace_keep, !filter_idempotent. repeat split.
Qed.

(** X22: what [removeNonNumeric] returns is always numeric for
    [isNumeric], the empty string it returns for a string without digits
    included. *)
Theorem isNumeric_removeNonNumeric (str : jsstring) :
  isNumeric (removeNonNumeric str) = true.
Proof.
  unfold isNumeric, removeNonNumeric. rewrite replace_keep, negb_true_iff.
  apply StringToNumber_complete.
  assert (Hd : Spec.all isDecimalDigit (filter (range "0" "9") str)).
  { apply Forall_forall. intros c Hc. apply filter_In in Hc. exact (proj2 Hc). }
  destruct (filter (range "0" "9") str) as [|d ds] eqn:E.
  - apply Spec.blank_string. constructor.
  - rewrite <- E in *.
    pose proof (Spec.numeric_string [] (filter (range "0" "9") str) []) as H.
    cbn [app] in H. rewrite app_nil_r in H.
    apply H; [constructor| |constructor].
    left. apply (Spec.signed_literal [] _ Spec.no_sign).
    pose proof (Spec.literal_integer (filter (range "0" "9") str) []) as Hi.
    rewrite app_nil_r in Hi. apply Hi; [|now left].
    split; [rewrite E; discriminate|assumption].
Qed.

Section Snake.

Variable toLowerCase : jsstring -> jsstring.

(** X23: [snakeCase] is [kebabCase] with every hyphen turned into an
    underscore: the same length, and no hyphen left. *)
Theorem snakeCase_no_hyphen (str : jsstring) :
  snakeCase toLowerCase str
  = map (fun c => if (c =? cu "-")%N then cu "_" else c) (kebabCase toLowerCase str)
  /\ length (snakeCase toLowerCase str) = length (kebabCase toLowerCase str)
  /\ ~ In (cu "-") (snakeCase toLowerCase str).
Proof.
  assert (E : snakeCase toLowerCase str
              = map (fun c => if (c =? cu "-")%N then cu "_" else c)
                  (kebabCase toLowerCase str)).
  { unfold snakeCase. rewrite replace_class by reflexivity.
    induction (kebabCase toLowerCase str) as [|c s IH]; [reflexivity|].
    cbn [flat_map map]. rewrite IH. unfold lit. rewrite (N.eqb_sym (cu "-")).
    destruct (c =? cu "-")%N; reflexivity. }
  split; [exact E|]. rewrite E. split; [apply length_map|].
  intros H. apply in_map_iff in H. destruct H as (c & Hc & Hin).
  destruct (c =? cu "-")%N eqn:Ec; [discriminate|].
  subst c. discriminate.
Qed.

End Snake.

Lemma escape_no_angle (c x : code_unit) :
  In x (Spec.escape c) -> x <> cu "<" /\ x <> cu ">".
Proof.
  unfold Spec.escape, Spec.escapeAngle.
  destruct (N.eqb_spec c (cu "&")) as [->|H1];
    [|destruct (N.eqb_spec c (cu "<")) as [->|H2];
      [|destruct (N.eqb_spec c (cu ">")) as [->|H3]]];
    intros H; cbn in H;
    repeat (destruct H as [<-|H];
            [split; first [congruence|intros E; vm_compute in E; discriminate]|]);
    destruct H.
Qed.

Lemma htmlSafe_flat_map (s : jsstring) : htmlSafe s = flat_map Spec.escape s.
Proof.
  change (htmlSafe s) with (xssSafe (replace s [plain (lit "&")] (js "&amp;"))).
  rewrite xssSafe_flat_map, escapeAmp_flat_map, flat_map_compose.
  apply flat_map_ext. intros c. unfold Spec.escape, Spec.escapeAmp.
  destruct (N.eqb_spec c (cu "&")) as [->|_]; [reflexivity|].
  cbn [flat_map]. apply app_nil_r.
Qed.

(** X24: the result of [htmlSafe] and of [xssSafe] holds no angle
    bracket, neither [<] nor [>]. *)
Theorem htmlSafe_no_angle_bracket (s : jsstring) :
  ~ In (cu "<") (htmlSafe s) /\ ~ In (cu ">") (htmlSafe s)
  /\ ~ In (cu "<") (xssSafe s) /\ ~ In (cu ">") (xssSafe s).
Proof.
  rewrite htmlSafe_flat_map, xssSafe_flat_map.
  assert (Ha : forall c x, In x (Spec.escapeAngle c) -> x <> cu "<" /\ x <> cu ">").
  { intros c x. unfold Spec.escapeAngle.
    destruct (N.eqb_spec c (cu "<")) as [->|H2];
      [|destruct (N.eqb_spec c (cu ">")) as [->|H3]];
      intros H; cbn in H;
      repeat (destruct H as [<-|H];
              [split; first [congruence|intros E; vm_compute in E; discriminate]|]);
      destruct H. }
  split; [|split; [|split]]; intros H; apply in_flat_map in H;
    destruct H as (c & Hc & Hx).
  - apply escape_no_angle in Hx. now destruct Hx.
  - apply escape_no_angle in Hx. now destruct Hx.
  - apply Ha in Hx. now destruct Hx.
  - apply Ha in Hx. now destruct Hx.
Qed.

End StringExtras2.

Section CamelCase.

(** The host's upper-casing, with what it does to a letter a-z. *)
Variable toUpperCase : jsstring -> jsstring.
Hypothesis toUpperCase_letter :
  forall c, range "a" "z" c = true -> toUpperCase [c] = [(c - 32)%N].

Lemma exec_hyphen_letter (c d : code_unit) (r : jsstring) :
  exec [plain (lit "-"); group (range "a" "z")] (c :: d :: r)
  = if lit "-" c && range "a" "z" d then Some (2%nat, [Some [d]]) else None.
Proof. cbn [exec]. destruct (lit "-" c), (range "a" "z" d); reflexivity. Qed.

Lemma replace_with_from_cons re replacer str position (c : code_unit) rest :
  replace_with_from re replacer str position 0 (c :: rest)
  = match exec re (c :: rest) with
    | None => c :: replace_with_from re replacer str (S position) 0 rest
    | Some (O, captures) =>
      replacer [] captures position str
        ++ c :: replace_with_from re replacer str (S position) 0 rest
    | Some (S k, captures) =>
      replacer (firstn (S k) (c :: rest)) captures position str
        ++ replace_with_from re replacer str (S position) k rest
    end.
Proof. reflexivity. Qed.

Lemma camelCase_from (str : jsstring) (n : nat) :
  forall s position, (length s <= n)%nat ->
    replace_with_from [plain (lit "-"); group (range "a" "z")]
      (fun g _ _ _ => match item g 1 with Some c => toUpperCase [c] | None => [] end)
      str position 0 s
    = Spec.camel s.
Proof.
  induction n as [|n IH]; intros s position Hs.
  - destruct s; [reflexivity|cbn in Hs; lia].
  - destruct s as [|c [|d r]]; [reflexivity| |].
    + cbn [replace_with_from exec Spec.camel]. destruct (lit "-" c); reflexivity.
    + rewrite replace_with_from_cons, exec_hyphen_letter. cbn [Spec.camel].
      destruct (lit "-" c && range "a" "z" d) eqn:E.
      * apply andb_true_iff in E. destruct E as [_ Hd].
        change (item (firstn 2 (c :: d :: r)) 1) with (Some d). cbv iota.
        rewrite (toUpperCase_letter d Hd). cbn [app]. f_equal.
        change (replace_with_from ?re ?f str (S position) 1 (d :: r))
          with (replace_with_from re f str (S (S position)) 0 r).
        apply IH. cbn [length] in Hs. lia.
      * f_equal. apply IH. cbn [length] in *. lia.
Qed.

Lemma camelCase_camel (str : jsstring) : camelCase toUpperCase str = Spec.camel str.
Proof. unfold camelCase, replace_with. now apply (camelCase_from str (length str)). Qed.

Lemma capital_not_letter (d : code_unit) :
  range "a" "z" d = true -> range "a" "z" (d - 32)%N = false /\ lit "-" (d - 32)%N = false.
Proof.
  unfold range, lit, between. change (cu "a") with 97%N. change (cu "z") with 122%N.
  change (cu "-") with 45%N.
  rewrite andb_true_iff, andb_false_iff, !N.leb_le, !N.leb_gt, N.eqb_neq. lia.
Qed.

Lemma camel_head (s : jsstring) :
  Spec.headNot (range "a" "z") s -> Spec.headNot (range "a" "z") (Spec.camel s).
Proof.
  destruct s as [|c [|d r]]; intros H; [exact I|exact H|].
  cbn [Spec.camel]. destruct (lit "-" c && range "a" "z" d) eqn:E; [|exact H].
  apply andb_true_iff in E. apply (capital_not_letter d), E.
Qed.

Lemma camel_cons_other (c : code_unit) (t : jsstring) :
  lit "-" c = false \/ Spec.headNot (range "a" "z") t ->
  Spec.camel (c :: t) = c :: Spec.camel t.
Proof.
  intros H. destruct t as [|e r]; [reflexivity|]. cbn [Spec.camel].
  destruct H as [H|H]; [now rewrite H|].
  cbn in H. now rewrite H, andb_false_r.
Qed.

Lemma camel_idempotent (n : nat) :
  forall s, (length s <= n)%nat -> Spec.camel (Spec.camel s) = Spec.camel s.
Proof.
  induction n as [|n IH]; intros s Hs.
  - destruct s; [reflexivity|cbn in Hs; lia].
  - destruct s as [|c [|d r]]; [reflexivity|reflexivity|].
    cbn [Spec.camel length] in *.
    destruct (lit "-" c) eqn:Hc; cbn [andb].
    + destruct (range "a" "z" d) eqn:Hd.
      * rewrite camel_cons_other by (left; apply (capital_not_letter d Hd)).
        f_equal. apply IH. lia.
      * rewrite camel_cons_other.
        -- f_equal. apply (IH (d :: r)). cbn [length]. lia.
        -- right. apply (camel_head (d :: r)). exact Hd.
    + rewrite camel_cons_other by (left; exact Hc).
      f_equal. apply (IH (d :: r)). cbn [length]. lia.
Qed.

(** X25: whatever the string, [camelCase] returns a string that
    [isCamelCase] accepts: no hyphen followed by a letter a-z is left, and
    [camelCase] is idempotent. *)
Theorem isCamelCase_camelCase (s : jsstring) :
  isCamelCase toUpperCase (camelCase toUpperCase s) = true
  /\ camelCase toUpperCase (camelCase toUpperCase s) = camelCase toUpperCase s.
Proof.
  assert (E : camelCase toUpperCase (camelCase toUpperCase s)
              = camelCase toUpperCase s).
  { rewrite !camelCase_camel. now apply (camel_idempotent (length s)). }
  split; [|exact E]. unfold isCamelCase. apply strict_eq_true. now rewrite E.
Qed.

End CamelCase.

Section CamelCaseInstance.

Lemma asciiUpper_letter (c : code_unit) :
  range "a" "z" c = true -> Spec.asciiUpper [c] = [(c - 32)%N].
Proof. intros H. unfold Spec.asciiUpper. cbn [map]. now rewrite H. Qed.

Lemma isCamelCase_camelCase_witness :
  isCamelCase Spec.asciiUpper (camelCase Spec.asciiUpper (js "hello-world--x-")) = true
  /\ camelCase Spec.asciiUpper (js "hello-world--x-") = js "helloWorld-X-".
Proof.
  split; [|reflexivity].
  apply (isCamelCase_camelCase Spec.asciiUpper asciiUpper_letter (js "hello-world--x-")).
Defined.

End CamelCaseInstance.

Section Anagram.

Lemma insert_map {A B : Type} (f : A -> B) (pa : A -> A -> bool) (pb : B -> B -> bool) :
  (forall x y, pb (f x) (f y) = pa x y) ->
  forall x l, insert pb (f x) (map f l) = map f (insert pa x l).
Proof.
  intros H x l. induction l as [|y l IH]; [reflexivity|].
  cbn [map insert]. rewrite H. destruct (pa x y); [reflexivity|].
  cbn [map]. now rewrite IH.
Qed.

Lemma sort_map {A B : Type} (f : A -> B) (pa : A -> A -> bool) (pb : B -> B -> bool) :
  (forall x y, pb (f x) (f y) = pa x y) ->
  forall l, sort pb (map f l) = map f (sort pa l).
Proof.
  intros H l. induction l as [|x l IH]; [reflexivity|].
  unfold sort in *. cbn [map fold_right]. rewrite IH. now apply insert_map.
Qed.

Lemma defaultOrder_units (x y : code_unit) : defaultOrder [x] [y] = (x <=? y)%N.
Proof.
  unfold defaultOrder. cbn [lessThan].
  destruct (N.ltb_spec y x), (N.leb_spec x y), (N.ltb_spec x y); try lia; reflexivity.
Qed.

Lemma join_cons (a b : jsstring) (rest : list jsstring) (separator : jsstring) :
  join (a :: b :: rest) separator = a ++ separator ++ join (b :: rest) separator.
Proof. reflexivity. Qed.

Lemma join_comma_injective (l1 l2 : jsstring) :
  join (map (fun c => [c]) l1) (js ",") = join (map (fun c => [c]) l2) (js ",") ->
  l1 = l2.
Proof.
  revert l2. induction l1 as [|c [|d l1] IH]; intros [|c' [|d' l2]] H;
    cbn [map] in H; rewrite ?join_cons in H; cbn [join app] in H;
    unfold js in H; cbn [list_ascii_of_string map app] in H;
    try reflexivity; try discriminate.
  - congruence.
  - injection H as -> H. f_equal. apply (IH (d' :: l2)). exact H.
Qed.

(** X26: [isAnagram str1 str2] is true exactly when the code units of
    one string are those of the other in another order, each as many times
    (upper and lower case apart). *)
Theorem isAnagram_permutation (str1 str2 : jsstring) :
  isAnagram str1 str2 = true <-> Permutation str1 str2.
Proof.
  unfold isAnagram, split.
  rewrite !(sort_map (fun c => [c]) N.leb defaultOrder defaultOrder_units).
  rewrite strict_eq_true.
  assert (Ht : forall x y, (x <=? y)%N = true \/ (y <=? x)%N = true)
    by (intros; rewrite !N.leb_le; lia).
  assert (Hr : forall x y z, (x <=? y)%N = true -> (y <=? z)%N = true -> (x <=? z)%N = true)
    by (intros x y z; rewrite !N.leb_le; lia).
  assert (Ha : forall x y, (x <=? y)%N = true -> (y <=? x)%N = true -> x = y)
    by (intros x y; rewrite !N.leb_le; lia).
  split.
  - intros H. apply join_comma_injective in H.
    rewrite <- (sort_permutation _ N.leb str1), H. apply sort_permutation.
  - intros H. now rewrite (sort_of_permutation _ N.leb Ht Hr Ha str1 str2 H).
Qed.

End Anagram.

Section PatternExamples.

Example normalizeWhitespace_hello :
  normalizeWhitespace (js "hello   world  ") = js "hello world ".
Proof. vm_compute. reflexivity. Qed.

Example removeExtraWhitespace_hello :
  removeExtraWhitespace (js " hello  world ") = js "hello world".
Proof. vm_compute. reflexivity. Qed.

Example removeHtmlTags_p :
  removeHtmlTags (js "<p>hello <b>world</b></p> 1 < 2") = js "hello world 1 < 2".
Proof. vm_compute. reflexivity. Qed.

Example isAlpha_samples :
  map isAlpha [js "hello"; js "hello world"; []; js "abc1"] = [true; false; false; false]
  /\ map isAlphaNumeric [js "hello123"; js "hello world"; []] = [true; false; false].
Proof. split; vm_compute; reflexivity. Qed.

Example replacePattern_group :
  replacePattern (js "a{12}b{}c{x}")
    (Then (Unit (lit "{")) (Then (Group 1 (Plus (Unit isDecimalDigit))) (Unit (lit "}"))))
    1 (js "[$1]")
  = js "a[12]b{}c{x}".
Proof. vm_compute. reflexivity. Qed.

End PatternExamples.

(** ** Properties of the pattern-based functions *)

Section Patterns.

Lemma run_star_unit (cls : CharClass) k (i : nat) (rest : jsstring) caps :
  run (Star (Unit cls)) k (mkMatchState i rest caps)
  = match rest with
    | c :: r =>
      if cls c
      then match run (Star (Unit cls)) k (mkMatchState (S i) r caps) with
           | Some z => Some z
           | None => k (mkMatchState i rest caps)
           end
      else k (mkMatchState i rest caps)
    | [] => k (mkMatchState i rest caps)
    end.
Proof.
  destruct rest as [|c r]; [reflexivity|].
  cbn [run remaining length index groups]. destruct (cls c); [|reflexivity].
  replace (length r <? S (length r))%nat with true
    by (symmetry; apply Nat.ltb_lt; lia).
  reflexivity.
Qed.

Lemma run_then (p q : Pattern) k (x : MatchState) :
  run (Then p q) k x = run p (run q k) x.
Proof. reflexivity. Qed.

Lemma run_unit (cls : CharClass) k (i : nat) (rest : jsstring) caps :
  run (Unit cls) k (mkMatchState i rest caps)
  = match rest with
    | c :: r => if cls c then k (mkMatchState (S i) r caps) else None
    | [] => None
    end.
Proof. reflexivity. Qed.

Lemma run_atStart k (x : MatchState) :
  run AtStart k x = if (index x =? 0)%nat then k x else None.
Proof. reflexivity. Qed.

(** With nothing asked after it, [cls*] takes the longest run. *)
Lemma run_star_accept (cls : CharClass) (i : nat) (rest : jsstring) caps :
  run (Star (Unit cls)) Some (mkMatchState i rest caps)
  = Some (mkMatchState (i + length (fst (span cls rest))) (snd (span cls rest)) caps).
Proof.
  revert i. induction rest as [|c r IH]; intros i; rewrite run_star_unit.
  - cbn. now rewrite Nat.add_0_r.
  - cbn [span]. destruct (cls c).
    + rewrite IH. destruct (span cls r) as [p r']. cbn [fst snd length].
      now rewrite Nat.add_succ_r.
    + cbn. now rewrite Nat.add_0_r.
Qed.

Lemma span_lengths (cls : CharClass) (s : jsstring) :
  (length (fst (span cls s)) + length (snd (span cls s)) = length s)%nat.
Proof.
  destruct (span cls s) as [p r] eqn:E. apply span_split in E.
  destruct E as [-> _]. cbn [fst snd]. now rewrite length_app.
Qed.

Lemma matchAt_plus (cls : CharClass) (position : nat) (rest : jsstring) :
  matchAt (Plus (Unit cls)) 0 position rest
  = match rest with
    | c :: r => if cls c then Some (S (length (fst (span cls r))), []) else None
    | [] => None
    end.
Proof.
  unfold matchAt, Plus. rewrite run_then, run_unit. cbn [repeat].
  destruct rest as [|c r]; [reflexivity|]. destruct (cls c); [|reflexivity].
  rewrite run_star_accept. cbn [remaining groups length].
  pose proof (span_lengths cls r). do 2 f_equal. lia.
Qed.

Lemma replace_by_cons find substitute position (c : code_unit) rest :
  replace_by find substitute position 0 (c :: rest)
  = match find position (c :: rest) with
    | None => c :: replace_by find substitute (S position) 0 rest
    | Some (O, captures) =>
      substitute [] captures position
        ++ c :: replace_by find substitute (S position) 0 rest
    | Some (S k, captures) =>
      substitute (firstn (S k) (c :: rest)) captures position
        ++ replace_by find substitute (S position) k rest
    end.
Proof. reflexivity. Qed.

Lemma replace_by_skip find substitute (n : nat) :
  forall rest position, (n <= length rest)%nat ->
    replace_by find substitute position n rest
    = replace_by find substitute (position + n) 0 (skipn n rest).
Proof.
  induction n as [|n IH]; intros rest position Hn.
  - now rewrite Nat.add_0_r.
  - destruct rest as [|c r]; [cbn in Hn; lia|].
    cbn [replace_by skipn]. rewrite IH by (cbn in Hn; lia).
    now rewrite Nat.add_succ_r.
Qed.

Lemma replace_by_position find substitute :
  (forall i j r, find i r = find j r) ->
  (forall m c i j, substitute m c i = substitute m c j) ->
  forall rest skip i j,
    replace_by find substitute i skip rest = replace_by find substitute j skip rest.
Proof.
  intros Hf Hs. induction rest as [|c r IH]; intros skip i j.
  - cbn [replace_by]. rewrite (Hf i j). destruct skip; [|reflexivity].
    destruct (find j []) as [[n caps]|]; [apply Hs|reflexivity].
  - destruct skip as [|k]; [|cbn [replace_by]; apply IH].
    rewrite !replace_by_cons, (Hf i j).
    destruct (find j (c :: r)) as [[[|n] caps]|].
    + rewrite (Hs _ _ i j), (IH 0%nat (S i) (S j)). reflexivity.
    + rewrite (Hs _ _ i j), (IH n (S i) (S j)). reflexivity.
    + now rewrite (IH 0%nat (S i) (S j)).
Qed.

(** *** Runs of white space *)

Lemma squeeze_run (text : jsstring) (r : jsstring) :
  Spec.squeeze text true r
  = Spec.squeeze text false (skipn (length (fst (span whiteSpace r))) r).
Proof.
  induction r as [|d r IH]; [reflexivity|].
  cbn [span Spec.squeeze]. unfold whiteSpace at 1.
  destruct (isStrWhiteSpaceChar d) eqn:E.
  - rewrite IH. destruct (span whiteSpace r) as [p r']. reflexivity.
  - cbn [fst length skipn Spec.squeeze]. now rewrite E.
Qed.

Lemma replace_white (str text : jsstring) (n : nat) :
  forallb (fun c => negb (c =? cu "$")%N) text = true ->
  forall rest position, (length rest <= n)%nat ->
    replace_by (matchAt (Plus (Unit whiteSpace)) 0)
      (fun matched captures position =>
         GetSubstitution matched str position captures text)
      position 0 rest
    = Spec.squeeze text false rest.
Proof.
  intros Ht. induction n as [|n IH]; intros rest position Hn.
  - destruct rest; [reflexivity|cbn in Hn; lia].
  - destruct rest as [|c r]; [reflexivity|].
    rewrite replace_by_cons, matchAt_plus. cbn [Spec.squeeze].
    unfold whiteSpace at 1. destruct (isStrWhiteSpaceChar c).
    + rewrite GetSubstitution_literal by assumption. f_equal.
      pose proof (span_lengths whiteSpace r) as Hl.
      rewrite replace_by_skip by lia.
      rewrite IH by (rewrite length_skipn; cbn [length] in Hn; lia).
      symmetry. apply squeeze_run.
    + f_equal. apply IH. cbn [length] in Hn. lia.
Qed.

Lemma replacePattern_white (str text : jsstring) :
  forallb (fun c => negb (c =? cu "$")%N) text = true ->
  replacePattern str (Plus (Unit whiteSpace)) 0 text = Spec.squeeze text false str.
Proof.
  intros Ht. unfold replacePattern. now apply (replace_white str text (length str)).
Qed.

Lemma squeeze_delete (inRun : bool) (s : jsstring) :
  Spec.squeeze [] inRun s = filter Spec.notWhite s.
Proof.
  revert inRun. induction s as [|c r IH]; intros inRun; [reflexivity|].
  cbn [Spec.squeeze filter]. unfold Spec.notWhite at 1.
  destruct (isStrWhiteSpaceChar c); cbn [negb app].
  - destruct inRun; apply IH.
  - f_equal. apply IH.
Qed.

Lemma squeeze_flag (text : jsstring) (s : jsstring) :
  Spec.headNot isStrWhiteSpaceChar s ->
  Spec.squeeze text true s = Spec.squeeze text false s.
Proof.
  destruct s as [|c r]; [reflexivity|]. cbn. now intros ->.
Qed.

Lemma squeeze_head (text : jsstring) (s : jsstring) :
  Spec.headNot isStrWhiteSpaceChar (Spec.squeeze text true s).
Proof.
  induction s as [|c r IH]; [exact I|]. cbn [Spec.squeeze].
  destruct (isStrWhiteSpaceChar c) eqn:E; [exact IH|exact E].
Qed.

Lemma squeeze_space_idempotent (s : jsstring) (inRun : bool) :
  Spec.squeeze (js " ") false (Spec.squeeze (js " ") inRun s)
  = Spec.squeeze (js " ") inRun s.
Proof.
  revert inRun. induction s as [|c r IH]; intros inRun; [reflexivity|].
  cbn [Spec.squeeze]. destruct (isStrWhiteSpaceChar c) eqn:E.
  - destruct inRun; [apply IH|].
    change (js " " ++ Spec.squeeze (js " ") true r)
      with (cu " " :: Spec.squeeze (js " ") true r).
    cbn [Spec.squeeze]. change (isStrWhiteSpaceChar (cu " ")) with true. cbv iota.
    rewrite squeeze_flag by apply squeeze_head. now rewrite IH.
  - cbn [Spec.squeeze]. rewrite E. f_equal. apply IH.
Qed.

Lemma filter_squeeze_space (inRun : bool) (s : jsstring) :
  filter Spec.notWhite (Spec.squeeze (js " ") inRun s) = filter Spec.notWhite s.
Proof.
  revert inRun. induction s as [|c r IH]; intros inRun; [reflexivity|].
  cbn [Spec.squeeze filter]. unfold Spec.notWhite at 2.
  destruct (isStrWhiteSpaceChar c) eqn:E; cbn [negb].
  - destruct inRun; [apply IH|].
    change (js " " ++ Spec.squeeze (js " ") true r)
      with (cu " " :: Spec.squeeze (js " ") true r).
    cbn [filter]. change (Spec.notWhite (cu " ")) with false. cbv iota. apply IH.
  - cbn [filter]. unfold Spec.notWhite at 1. rewrite E. cbn [negb]. f_equal. apply IH.
Qed.

(** X27: [removeWhitespace] deletes the white space and nothing else;
    [normalizeWhitespace] puts one space for every longest run of white
    space (tabs and line breaks included), is idempotent, and changes
    nothing for [removeWhitespace]. *)
Theorem normalizeWhitespace_runs (str : jsstring) :
  removeWhitespace str = filter Spec.notWhite str
  /\ normalizeWhitespace str = Spec.squeeze (js " ") false str
  /\ normalizeWhitespace (normalizeWhitespace str) = normalizeWhitespace str
  /\ removeWhitespace (normalizeWhitespace str) = removeWhitespace str.
Proof.
  unfold removeWhitespace, normalizeWhitespace.
  rewrite !replacePattern_white by reflexivity.
  rewrite !squeeze_delete, squeeze_space_idempotent, filter_squeeze_space.
  repeat split.
Qed.

(** *** Trimming before squeezing *)

Lemma trimStart_head (s : jsstring) : Spec.headNot isStrWhiteSpaceChar (trimStart s).
Proof.
  induction s as [|c r IH]; [exact I|]. cbn [trimStart].
  destruct (isStrWhiteSpaceChar c) eqn:E; [exact IH|exact E].
Qed.

Lemma trimStart_fixed (s : jsstring) :
  Spec.headNot isStrWhiteSpaceChar s -> trimStart s = s.
Proof. destruct s as [|c r]; [reflexivity|]. cbn. now intros ->. Qed.

Lemma lastNot_app_unit (cls : CharClass) (s : jsstring) (c : code_unit) :
  Spec.lastNot cls (s ++ [c]) <-> cls c = false.
Proof.
  induction s as [|a s IH]; [reflexivity|].
  cbn [app Spec.lastNot]. destruct s as [|b s]; exact IH.
Qed.

Lemma lastNot_app (cls : CharClass) (p s : jsstring) :
  s <> [] -> Spec.lastNot cls s -> Spec.lastNot cls (p ++ s).
Proof.
  intros Hs H. induction p as [|a p IH]; [exact H|].
  cbn [app Spec.lastNot]. destruct (p ++ s) eqn:E; [|exact IH].
  apply app_eq_nil in E. now destruct E.
Qed.

Lemma lastNot_rev (cls : CharClass) (s : jsstring) :
  Spec.headNot cls s -> Spec.lastNot cls (rev s).
Proof.
  destruct s as [|c r]; [intros _; exact I|].
  cbn [rev Spec.headNot]. apply lastNot_app_unit.
Qed.

Lemma headNot_rev (cls : CharClass) (s : jsstring) :
  Spec.lastNot cls s -> Spec.headNot cls (rev s).
Proof.
  intros H. rewrite <- (rev_involutive s) in H.
  destruct (rev s) as [|c r]; [exact I|].
  cbn [rev] in H. now apply lastNot_app_unit in H.
Qed.

Lemma trim_ends (s : jsstring) :
  Spec.headNot isStrWhiteSpaceChar (trim s)
  /\ Spec.lastNot isStrWhiteSpaceChar (trim s).
Proof.
  unfold trim. split; [|apply lastNot_rev, trimStart_head].
  destruct (trimStart_split (rev (trimStart s))) as (w & _ & E).
  apply (f_equal (@rev _)) in E. rewrite rev_involutive, rev_app_distr in E.
  pose proof (trimStart_head s) as H. rewrite E in H.
  destruct (rev (trimStart (rev (trimStart s)))); [exact I|exact H].
Qed.

Lemma trim_fixed (s : jsstring) :
  Spec.headNot isStrWhiteSpaceChar s -> Spec.lastNot isStrWhiteSpaceChar s ->
  trim s = s.
Proof.
  intros Hh Hl. unfold trim.
  rewrite (trimStart_fixed s Hh), trimStart_fixed by now apply headNot_rev.
  apply rev_involutive.
Qed.

Lemma squeeze_headNot (text : jsstring) (inRun : bool) (s : jsstring) :
  Spec.headNot isStrWhiteSpaceChar s ->
  Spec.headNot isStrWhiteSpaceChar (Spec.squeeze text inRun s).
Proof.
  destruct s as [|c r]; [intros _; exact I|].
  cbn [Spec.headNot Spec.squeeze]. intros E. rewrite E. exact E.
Qed.

Lemma squeeze_lastNot (text : jsstring) (s : jsstring) :
  forall inRun, s <> [] -> Spec.lastNot isStrWhiteSpaceChar s ->
    Spec.squeeze text inRun s <> []
    /\ Spec.lastNot isStrWhiteSpaceChar (Spec.squeeze text inRun s).
Proof.
  induction s as [|c r IH]; intros inRun Hs Hl; [congruence|].
  destruct r as [|d r'].
  - cbn in Hl |- *. rewrite Hl. split; [discriminate|exact Hl].
  - remember (d :: r') as r eqn:Er.
    assert (Hr : r <> []) by (subst r; discriminate).
    assert (Hl' : Spec.lastNot isStrWhiteSpaceChar r)
      by (subst r; exact Hl).
    cbn [Spec.squeeze]. destruct (isStrWhiteSpaceChar c).
    + destruct inRun; [now apply IH|].
      destruct (IH true Hr Hl') as [Hne Hlast]. split.
      * intros E. apply app_eq_nil in E. now destruct E.
      * now apply lastNot_app.
    + destruct (IH false Hr Hl') as [Hne Hlast]. split; [discriminate|].
      now apply (lastNot_app _ [c]).
Qed.

(** X28: [removeExtraWhitespace] is the trimmed string with one space for
    every run of white space; the result neither starts nor ends with white
    space, and the function is idempotent. *)
Theorem removeExtraWhitespace_squeezed (str : jsstring) :
  removeExtraWhitespace str = Spec.squeeze (js " ") false (trim str)
  /\ Spec.headNot isStrWhiteSpaceChar (removeExtraWhitespace str)
  /\ Spec.lastNot isStrWhiteSpaceChar (removeExtraWhitespace str)
  /\ removeExtraWhitespace (removeExtraWhitespace str) = removeExtraWhitespace str.
Proof.
  assert (E : forall s,
    removeExtraWhitespace s = Spec.squeeze (js " ") false (trim s)).
  { intros s. unfold removeExtraWhitespace. now apply replacePattern_white. }
  destruct (trim_ends str) as [Hh Hl].
  assert (Hh' : Spec.headNot isStrWhiteSpaceChar (removeExtraWhitespace str))
    by (rewrite E; now apply squeeze_headNot).
  assert (Hl' : Spec.lastNot isStrWhiteSpaceChar (removeExtraWhitespace str)).
  { rewrite E. destruct (trim str) as [|c r] eqn:Et; [exact I|].
    apply squeeze_lastNot; [discriminate|exact Hl]. }
  repeat split; try assumption; [apply E|].
  rewrite (E (removeExtraWhitespace str)), trim_fixed by assumption.
  rewrite E. apply squeeze_space_idempotent.
Qed.

(** *** Anchored classes *)

Lemma run_star_end (cls : CharClass) (rest : jsstring) caps :
  forall i,
    run (Star (Unit cls)) (run AtEnd Some) (mkMatchState i rest caps)
    = if forallb cls rest
      then Some (mkMatchState (i + length rest) [] caps)
      else None.
Proof.
  induction rest as [|c r IH]; intros i; rewrite run_star_unit.
  - cbn. now rewrite Nat.add_0_r.
  - cbn [forallb length]. destruct (cls c); [|reflexivity].
    rewrite IH. cbn [andb]. destruct (forallb cls r); [|reflexivity].
    now rewrite Nat.add_succ_r.
Qed.

Lemma search_anchored (p : Pattern) (count : nat) (rest : jsstring) :
  forall position, search (Then AtStart p) count (S position) rest = false.
Proof.
  induction rest as [|c r IH]; intros position; cbn [search];
    unfold matchAt; rewrite run_then; cbn [run index Nat.eqb]; [reflexivity|apply IH].
Qed.

Lemma test_anchored_class (cls : CharClass) (str : jsstring) :
  test (Then AtStart (Then (Plus (Unit cls)) AtEnd)) 0 str
  = match str with [] => false | _ :: _ => forallb cls str end.
Proof.
  unfold test. destruct str as [|c r]; [reflexivity|].
  cbn [search]. rewrite search_anchored. unfold matchAt, Plus.
  rewrite run_then, run_atStart. cbn [index Nat.eqb repeat].
  rewrite !run_then, run_unit. cbn [forallb]. destruct (cls c); [|reflexivity].
  rewrite run_star_end. cbn [andb]. now destruct (forallb cls r).
Qed.

Lemma test_anchored_class_iff (cls : CharClass) (str : jsstring) :
  test (Then AtStart (Then (Plus (Unit cls)) AtEnd)) 0 str = true
  <-> str <> [] /\ Spec.all cls str.
Proof.
  rewrite test_anchored_class. unfold Spec.all. rewrite Forall_forall, <- forallb_forall.
  destruct str as [|c r]; split.
  - discriminate.
  - now intros [H _].
  - intros H. split; [discriminate|exact H].
  - now intros [_ H].
Qed.

(** X29: [isAlpha] holds exactly of the non-empty strings made of the code
    units a-z and A-Z only, [isAlphaNumeric] of those made of a-z, A-Z and
    0-9; so the empty string is rejected, and what [removeNonAlpha] or
    [removeNonAlphaNumeric] returns is accepted as soon as it is not empty. *)
Theorem isAlpha_class (str : jsstring) :
  (isAlpha str = true <-> str <> [] /\ Spec.all isAlphaUnit str)
  /\ (isAlphaNumeric str = true <-> str <> [] /\ Spec.all isAlphaNumericUnit str)
  /\ (isAlpha (removeNonAlpha str) = true <-> removeNonAlpha str <> [])
  /\ (isAlphaNumeric (removeNonAlphaNumeric str) = true
      <-> removeNonAlphaNumeric str <> []).
Proof.
  unfold isAlpha, isAlphaNumeric, removeNonAlpha, removeNonAlphaNumeric.
  rewrite !replace_keep.
  assert (K : forall cls : CharClass,
    test (Then AtStart (Then (Plus (Unit cls)) AtEnd)) 0 (filter cls str) = true
    <-> filter cls str <> []).
  { intros cls. rewrite test_anchored_class_iff. split; [tauto|].
    intros Hne. split; [exact Hne|].
    apply Forall_forall. intros c Hc. now apply filter_In in Hc. }
  split; [apply test_anchored_class_iff|].
  split; [apply test_anchored_class_iff|].
  split; apply K.
Qed.

(** *** Tags *)

Lemma run_star_until (cls : CharClass) (rest : jsstring) caps :
  forall i,
    run (Star (Unit (fun c => negb (cls c)))) (run (Unit cls) Some)
      (mkMatchState i rest caps)
    = match snd (span (fun c => negb (cls c)) rest) with
      | _ :: r =>
        Some (mkMatchState
                (S (i + length (fst (span (fun c => negb (cls c)) rest)))) r caps)
      | [] => None
      end.
Proof.
  induction rest as [|c r IH]; intros i; rewrite run_star_unit; [reflexivity|].
  cbn [span]. destruct (cls c) eqn:Ec; cbn [negb].
  - rewrite run_unit, Ec. cbn [fst snd length]. now rewrite Nat.add_0_r.
  - rewrite IH. destruct (span (fun c0 => negb (cls c0)) r) as [p r'].
    cbn [fst snd length]. destruct r' as [|d r''].
    + now rewrite run_unit, Ec.
    + now rewrite Nat.add_succ_r.
Qed.

Lemma matchAt_tag (position : nat) (rest : jsstring) :
  matchAt tagPattern 0 position rest
  = match rest with
    | c :: r =>
      if lit "<" c
      then match snd (span (fun c => negb (lit ">" c)) r) with
           | _ :: _ =>
             Some (S (S (length (fst (span (fun c => negb (lit ">" c)) r)))), [])
           | [] => None
           end
      else None
    | [] => None
    end.
Proof.
  unfold matchAt, tagPattern. rewrite run_then, run_unit. cbn [repeat].
  destruct rest as [|c r]; [reflexivity|]. destruct (lit "<" c); [|reflexivity].
  rewrite run_then, run_star_until.
  pose proof (span_lengths (fun c => negb (lit ">" c)) r) as Hl.
  destruct (snd (span (fun c => negb (lit ">" c)) r)) as [|d r']; [reflexivity|].
  cbn [remaining groups length] in Hl |- *. do 2 f_equal. lia.
Qed.

Lemma lit_In (a : ascii) (s : jsstring) :
  ~ In (cu a) s -> Spec.all (fun c => negb (lit a c)) s.
Proof.
  intros H. apply Forall_forall. intros c Hc. apply negb_true_iff.
  unfold lit. apply N.eqb_neq. intros E. apply H. now rewrite E.
Qed.

Lemma removeTags_position (rest : jsstring) (i : nat) :
  replace_by (matchAt tagPattern 0)
    (fun matched captures position =>
       GetSubstitution matched rest position captures []) i 0 rest
  = removeHtmlTags rest.
Proof.
  unfold removeHtmlTags, replacePattern.
  apply replace_by_position.
  - intros. now rewrite !matchAt_tag.
  - reflexivity.
Qed.

Lemma removeTags_source (str str' rest : jsstring) (i : nat) :
  replace_by (matchAt tagPattern 0)
    (fun matched captures position =>
       GetSubstitution matched str position captures []) i 0 rest
  = replace_by (matchAt tagPattern 0)
    (fun matched captures position =>
       GetSubstitution matched str' position captures []) i 0 rest.
Proof. reflexivity. Qed.

Lemma removeTags_none (str : jsstring) (rest : jsstring) :
  ~ In (cu ">") rest ->
  forall i,
    replace_by (matchAt tagPattern 0)
      (fun matched captures position =>
         GetSubstitution matched str position captures []) i 0 rest
    = rest.
Proof.
  induction rest as [|c r IH]; intros Hin i; [reflexivity|].
  assert (Hr : ~ In (cu ">") r) by (intros H; apply Hin; now right).
  rewrite replace_by_cons, matchAt_tag, (span_all _ r (lit_In _ r Hr)).
  cbn [snd]. destruct (lit "<" c); now rewrite IH.
Qed.

(** X30: [removeHtmlTags] leaves a string without [>] as it is, an unclosed
    [<] included; and it deletes the first [<], all up to the next [>], and
    goes on after it. *)
Theorem removeHtmlTags_tags (str : jsstring) :
  (~ In (cu ">") str -> removeHtmlTags str = str)
  /\ (forall before tag after,
        ~ In (cu "<") before -> ~ In (cu ">") tag ->
        str = before ++ cu "<" :: tag ++ cu ">" :: after ->
        removeHtmlTags str = before ++ removeHtmlTags after).
Proof.
  split.
  - intros H. unfold removeHtmlTags, replacePattern. now apply removeTags_none.
  - intros before tag after Hb Ht ->. unfold removeHtmlTags at 1, replacePattern.
    generalize 0%nat at 2 as i.
    generalize (before ++ cu "<" :: tag ++ cu ">" :: after) at 1 as whole.
    intros whole. induction before as [|c b IH]; intros i.
    + cbn [app]. rewrite replace_by_cons, matchAt_tag.
      change (lit "<" (cu "<")) with true. cbv iota.
      rewrite (span_app _ tag (cu ">" :: after) (lit_In _ tag Ht) eq_refl).
      cbn [fst snd]. cbn [GetSubstitution app].
      rewrite replace_by_skip by (rewrite length_app; cbn [length]; lia).
      replace (skipn (S (length tag)) (tag ++ cu ">" :: after)) with after.
      * rewrite (removeTags_source whole after). apply removeTags_position.
      * change (cu ">" :: after) with ([cu ">"] ++ after).
        rewrite app_assoc.
        replace (S (length tag)) with (length (tag ++ [cu ">"]))
          by (rewrite length_app; cbn [length]; lia).
        now rewrite skipn_app, skipn_all, Nat.sub_diag.
    + assert (Hc : lit "<" c = false).
      { unfold lit. apply N.eqb_neq. intros E. apply Hb. now left. }
      cbn [app]. rewrite replace_by_cons, matchAt_tag, Hc. f_equal.
      apply IH. intros H. apply Hb. now right.
Qed.

End Patterns.
